(** * firedrake/plot.py: sampling, evaluation, Bezier reconstruction,
      triangulation stitching and renderer dispatch

    A shallow embedding of [src/firedrake/plot.py].  numpy arrays are
    records of a shape and row-major flat data; Python exceptions are the
    [Raise] branch of a result type; floating-point numbers are idealised as
    exact rationals ([Qc]).  Where rounding decides a property, the triangle
    grid, the code is also given over binary64 ([PrimFloat]). *)

From Stdlib Require Import QArith Qcanon ZArith Lia Bool String List.
From Stdlib Require Import Permutation Sorted.
From Stdlib Require PrimFloat Uint63.
From stdpp Require Import base option list numbers sorting strings.

Set Warnings "-register-all".

Local Open Scope Z_scope.
Local Open Scope nat_scope.
Local Open Scope list_scope.

(** ** Exceptions and results *)

Inductive exn : Type :=
| RuntimeError (msg : string)
| KeyError
| IndexError
| ValueError
| TypeError
| MaskError
| NotImplementedError
| LinAlgError.

Inductive res (A : Type) : Type :=
| Ok (a : A)
| Raise (e : exn).
Arguments Ok {A} a.
Arguments Raise {A} e.

#[global] Instance res_ret : MRet res := fun A a => Ok a.
#[global] Instance res_bind : MBind res := fun A B f m =>
  match m with
  | Ok a => f a
  | Raise e => Raise e
  end.

(** The errors of the numerical steps: none is a [RuntimeError]. *)
Definition numerical (e : exn) : Prop :=
  match e with
  | RuntimeError _ => False
  | _ => True
  end.

(** The three messages the module raises with. *)
Definition missing_dependency : exn :=
  RuntimeError "Matplotlib not importable, is it installed?"%string.
Definition unsupported_functionality : exn :=
  RuntimeError "Unsupported functionality"%string.
Definition not_a_notebook : exn := RuntimeError "Not in notebook"%string.

(** ** Numbers and arrays *)

Abbreviation float := Qc (only parsing).

Record ndarray (A : Type) : Type := mk_ndarray {
  shape : list nat;
  flat : list A
}.
Arguments mk_ndarray {A} shape flat.
Arguments shape {A} n.
Arguments flat {A} n.

Definition prod_shape (sh : list nat) : nat := foldr Nat.mul 1 sh.

Definition wf_ndarray {A} (a : ndarray A) : Prop :=
  length (flat a) = prod_shape (shape a).

(** [a.reshape(-1)] *)
Definition ravel {A} (a : ndarray A) : list A := flat a.

(** [np.reshape(a, a.shape + (1,))] *)
Definition reshape_append1 {A} (a : ndarray A) : ndarray A :=
  mk_ndarray (shape a ++ [1]) (flat a).

(** [a[idx]] with an integer index array over the first axis. *)
Definition take_rows {A} (a : ndarray A) (idx : ndarray nat) : res (ndarray A) :=
  match shape a with
  | [] => Raise IndexError
  | n :: rest =>
      let stride := prod_shape rest in
      if forallb (fun i => i <? n) (flat idx) then
        Ok (mk_ndarray (shape idx ++ rest)
              (flat_map (fun i => take stride (drop (i * stride) (flat a)))
                        (flat idx)))
      else Raise IndexError
  end.

Definition fsum (f : nat -> float) (n : nat) : float :=
  foldr (fun j acc => (f j + acc)%Qc) (Q2Qc 0) (seq 0 n).

(** [np.einsum("ijk,jl->ilk", data, elem)]: the two [j] extents must agree
    or one of them be 1, and an axis of extent 1 is broadcast along the other
    operand's. *)
Definition einsum_ijk_jl_ilk (data elem : ndarray float) : res (ndarray float) :=
  match shape data, shape elem with
  | [ni; nj; nk], [nj'; nl] =>
      if (nj =? nj') || (nj =? 1) || (nj' =? 1) then
        let extent := if nj =? 1 then nj' else nj in
        let jd j := if nj =? 1 then 0 else j in
        let je j := if nj' =? 1 then 0 else j in
        Ok (mk_ndarray [ni; nl; nk]
              (flat_map (fun i =>
                 flat_map (fun l =>
                   map (fun k =>
                          fsum (fun j =>
                                  (nth ((i * nj + jd j) * nk + k) (flat data) (Q2Qc 0)
                                   * nth (je j * nl + l) (flat elem) (Q2Qc 0))%Qc)
                               extent)
                       (seq 0 nk))
                   (seq 0 nl))
                 (seq 0 ni)))
      else Raise ValueError
  | _, _ => Raise ValueError
  end.

(** [np.linspace(start, stop, num=num, dtype=float)]: [num] evenly spaced
    samples from [start] to [stop]; a negative [num] is refused.  For
    [num = 1] the step is [x / 0 = 0] and the single sample is [start]. *)
Definition linspace (start stop : float) (num : Z) : res (list float) :=
  if (num <? 0)%Z then Raise ValueError
  else
    let step := ((stop - start) / Qc_of_Z (num - 1))%Qc in
    Ok (map (fun i => (start + Qc_of_Z (Z.of_nat i) * step)%Qc)
            (seq 0 (Z.to_nat num))).

(** [np.array(np.meshgrid(p, q)).T]: entry [a, b] is the pair [(p[a], q[b])]. *)
Definition meshgrid_T {A B} (p : list A) (q : list B) : list (list (A * B)) :=
  map (fun x => map (fun y => (x, y)) q) p.

(** [g[np.triu_indices(n)]]: row [a] keeps its columns [b >= a]. *)
Definition triu_select {A} (g : list (list A)) : list A :=
  concat (imap (fun a row => drop a row) g).

Definition points_of_pairs (l : list (float * float)) : ndarray float :=
  mk_ndarray [length l; 2] (flat_map (fun p => [p.1; p.2]) l).

(** ** Meshes and functions *)

Inductive Cell : Type :=
| interval
| triangle
| quadrilateral
| tetrahedron
| hexahedron.

#[global] Instance Cell_eq_dec : EqDecision Cell.
Proof. solve_decision. Defined.

(** The FIAT element: [tabulate order points] is the dictionary from
    derivative multi-indices to (node, point) tables; [dual_basis] lists, for
    each degree of freedom, the keys of its point dictionary. *)
Record FiatElement : Type := {
  tabulate : nat -> ndarray float -> res (list (list nat * ndarray float));
  dual_basis : list (list (list float))
}.

(** What the module reads of a function: its space's element degree, FIAT
    element and cell-to-node map, its coefficient array and its value shape. *)
Record Field : Type := {
  ufl_element_degree : nat;
  fiat_element : FiatElement;
  cell_node_list : ndarray nat;
  dat_data_ro : ndarray float;
  ufl_shape : list nat
}.

Record Mesh : Type := {
  ufl_cell : Cell;
  geometric_dimension : nat;
  topological_dimension : nat;
  num_cells : nat;
  coordinates : Field
}.

Record Function : Type := {
  field : Field;
  mesh : Mesh
}.

(** ** Sampling grid generator (the cell-shape branch of [_calculate_points]) *)

Definition sample_points (cell : Cell) (num_points : Z) : res (ndarray float) :=
  match cell with
  | interval =>
      points_1d ← linspace (Q2Qc 0) (Q2Qc 1) num_points;
      Ok (mk_ndarray [length points_1d; 1] points_1d)
  | quadrilateral =>
      points_1d ← linspace (Q2Qc 0) (Q2Qc 1) num_points;
      Ok (points_of_pairs (concat (meshgrid_T points_1d points_1d)))
  | triangle =>
      points_1d ← linspace (Q2Qc 0) (Q2Qc 1) num_points;
      let points_1d_rev := reverse points_1d in
      Ok (points_of_pairs (triu_select (meshgrid_T points_1d points_1d_rev)))
  | _ => Raise unsupported_functionality
  end.

(** ** The triangle grid in binary64

    The triangle branch again, with numpy's arithmetic: [np.linspace]
    computes [step = (stop - start) / (num - 1)] and the samples
    [i * step + start], every operation rounded to binary64, and stores [stop]
    itself as the last sample when there is more than one; with fewer than two
    samples there is no step and the samples are [i + start]. *)




(** ** Field evaluator *)

Definition keys (dimension : nat) : res (list nat) :=
  match dimension with
  | 1 => Ok [0]
  | 2 => Ok [0; 0]
  | _ => Raise KeyError
  end.

Fixpoint dict_get {V} (d : list (list nat * V)) (k : list nat) : res V :=
  match d with
  | [] => Raise KeyError
  | (k', v) :: d' => if decide (k' = k) then Ok v else dict_get d' k
  end.

(** [ma.compress_rows(ma.masked_array(cnl, mask=np.tile(mask.reshape(-1, 1),
    cnl.shape[1])))], as the index the coefficient array is then read with.
    The tiled mask has one row per mask entry.  [masked_array] takes it as it
    is when it has the shape of [cnl], resizes it when it has a single entry,
    reshapes it when it has as many entries as [cnl], and refuses it
    otherwise.  [compress_rows] is for two-dimensional arrays; it returns [cnl]
    itself when nothing is masked and drops the rows of masked cells; when
    every entry is masked it returns an empty array of floats, which the
    indexing that follows refuses. *)
Definition compress_masked (cnl : ndarray nat) (cell_mask : list bool)
  : res (ndarray nat) :=
  match shape cnl with
  | [] | [_] => Raise IndexError
  | [c; m] =>
      let len := length cell_mask in
      row_mask ← (if len =? c then Ok cell_mask
                  else if len * m =? 1
                       then Ok (replicate c (default false (head cell_mask)))
                  else if len * m =? c * m then Ok (replicate c false)
                  else Raise MaskError);
      if (m =? 0) || forallb negb row_mask then Ok cnl
      else if forallb id row_mask then Raise IndexError
      else
        let rows := map (fun i => take m (drop (i * m) (flat cnl))) (seq 0 c) in
        let kept :=
          map snd (filter (fun br => negb br.1) (combine row_mask rows)) in
        Ok (mk_ndarray [length kept; m] (concat kept))
  | _ :: m :: _ =>
      let len := length cell_mask in
      if (len * m =? 1) || (len * m =? prod_shape (shape cnl))
      then Raise NotImplementedError
      else Raise MaskError
  end.

(** FIAT's contract for [tabulate] in [dim] dimensions: a table has one
    column per point. *)
Definition tabulates_pointwise (e : FiatElement) (dim : nat) : Prop :=
  forall order pts tab key elem npts,
    shape pts = [npts; dim] ->
    wf_ndarray pts ->
    tabulate e order pts = Ok tab ->
    dict_get tab key = Ok elem ->
    exists nodes, shape elem = [nodes; npts].

Definition vec_length_of (sh : list nat) : nat :=
  match sh with
  | [] => 1
  | d :: _ => d
  end.

Definition _calculate_values (function : Field) (points : ndarray float)
    (dimension : nat) (cell_mask : option (list bool)) : res (ndarray float) :=
  tab ← tabulate (fiat_element function) 0 points;
  key ← keys dimension;
  elem ← dict_get tab key;
  cnl ← match cell_mask with
        | None => Ok (cell_node_list function)
        | Some m => compress_masked (cell_node_list function) m
        end;
  data ← take_rows (dat_data_ro function) cnl;
  let vec_length := vec_length_of (ufl_shape function) in
  let data := if vec_length =? 1 then reshape_append1 data else data in
  einsum_ijk_jl_ilk data elem.

Definition _calculate_points (function : Function) (num_points : Z)
    (dimension : nat) (cell_mask : option (list bool))
  : res (ndarray float * ndarray float) :=
  points ← sample_points (ufl_cell (mesh function)) num_points;
  y_vals ← _calculate_values (field function) points dimension cell_mask;
  x_vals ← _calculate_values (coordinates (mesh function)) points dimension cell_mask;
  Ok (x_vals, y_vals).

(** ** One-dimensional point assembly *)

(** [np.argsort(x)]: a permutation of the indices that orders [x]; ties are
    kept in index order here. *)
Definition key_le (x : list float) (i j : nat) : Prop :=
  (nth i x (Q2Qc 0) <= nth j x (Q2Qc 0))%Qc.

#[global] Instance key_le_dec x i j : Decision (key_le x i j).
Proof. unfold key_le. apply _. Defined.

#[global] Instance key_le_total (x : list float) : Total (key_le x).
Proof. intros i j. unfold key_le. apply Qc_le_total. Qed.

#[global] Instance key_le_trans (x : list float) : Transitive (key_le x).
Proof. intros i j k. unfold key_le. apply Qcle_trans. Qed.

Definition argsort (x : list float) : list nat :=
  merge_sort (key_le x) (seq 0 (length x)).

(** [a[order]] on a one-dimensional array. *)
Fixpoint take_index {A} (a : list A) (order : list nat) : res (list A) :=
  match order with
  | [] => Ok []
  | i :: order' =>
      match a !! i with
      | None => Raise IndexError
      | Some v => vs ← take_index a order'; Ok (v :: vs)
      end
  end.

(** The returned [np.array([x_vals, y_vals])] is the pair of its two rows. *)
Definition calculate_one_dim_points (function : Function) (num_points : Z)
    (cell_mask : option (list bool)) : res (list float * list float) :=
  xy ← _calculate_points function num_points 1 cell_mask;
  let x_vals := ravel xy.1 in
  let y_vals := ravel xy.2 in
  let order := argsort x_vals in
  x_sorted ← take_index x_vals order;
  y_sorted ← take_index y_vals order;
  Ok (x_sorted, y_sorted).

(** ** Plotting-library objects *)

Inductive path_code : Type := MOVETO | LINETO | CURVE3 | CURVE4.

Record Path : Type := {
  path_vertices : list (float * float);
  path_codes : list path_code
}.

Record Triangulation : Type := {
  tri_x : list float;
  tri_y : list float;
  tri_triangles : list (list nat)
}.

Inductive artist : Type :=
| Line2D (x y : list float)
| PathPatch (p : Path)
| TriSurf (t : Triangulation) (z : list float)
| TriContour (t : Triangulation) (z : list float)
| Widgets (slider_max : nat).

Definition Figure : Type := list artist.

(** [Path(vertices, codes)]: the codes must be as many as the vertices. *)
Definition mk_Path (vertices : list (float * float)) (codes : list path_code)
  : res Path :=
  if length codes =? length vertices
  then Ok {| path_vertices := vertices; path_codes := codes |}
  else Raise ValueError.

(** [Triangulation(x, y, triangles=t)]: every triangle has three vertices and
    every vertex index is within the vertex arrays. *)
Definition mk_Triangulation (x y : list float) (t : list (list nat))
  : res Triangulation :=
  if (length x =? length y)
     && forallb (fun tr => (length tr =? 3) && forallb (fun v => v <? length x) tr) t
  then Ok {| tri_x := x; tri_y := y; tri_triangles := t |}
  else Raise ValueError.

(** The refined reference triangulation: [tri.x], [tri.y] zipped, and
    [tri.get_masked_triangles()]. *)
Record RefinedTri : Type := {
  ref_vertices : list (float * float);
  ref_triangles : list (list nat)
}.

(** What [interpolate] is given: a function, or the first spatial
    coordinate of a mesh. *)
Inductive expression : Type :=
| ExprFunction (f : Function)
| ExprX0 (m : Mesh).

(** The collaborators outside this module: whether the plotting and the
    notebook-widget libraries import; matplotlib's uniform refiner; firedrake's
    discontinuous spaces and interpolation onto them; the notebook's
    [interact]. *)
Record Env : Type := {
  matplotlib_importable : bool;
  ipywidgets_importable : bool;
  refine_triangulation : list float -> list float -> nat -> RefinedTri;
  DG_fiat_element : Mesh -> nat -> FiatElement;
  DG_cell_node_list : Mesh -> nat -> ndarray nat;
  interpolate_data : Mesh -> nat -> expression -> ndarray float;
  interact : (nat -> res (option Figure)) -> Z -> res unit
}.

(** [Function(FunctionSpace(mesh, "DG", deg)).interpolate(e)] *)
Definition interpolate_DG (env : Env) (m : Mesh) (deg : nat) (e : expression)
  : Function :=
  {| field := {| ufl_element_degree := deg;
                 fiat_element := DG_fiat_element env m deg;
                 cell_node_list := DG_cell_node_list env m deg;
                 dat_data_ro := interpolate_data env m deg e;
                 ufl_shape := [] |};
     mesh := m |}.

(** ** Triangulation builder *)

(** [int(log(sqrt(num_sample_points), 4))]: the integer part of the base-16
    logarithm; [math.sqrt] and [math.log] refuse a count that is not
    positive. *)
Definition subdivision_depth (num_sample_points : Z) : res nat :=
  if (num_sample_points <=? 0)%Z then Raise ValueError
  else Ok (Z.to_nat (Z.log2 num_sample_points / 4)).

(** [triangles.max()] *)
Definition array_max (t : list (list nat)) : res nat :=
  match concat t with
  | [] => Raise ValueError
  | v :: vs => Ok (foldr Nat.max v vs)
  end.

Definition shape0 {A} (a : ndarray A) : res nat :=
  match shape a with
  | [] => Raise IndexError
  | n :: _ => Ok n
  end.

Fixpoint pairs_of {A} (fuel : nat) (l : list A) : list (A * A) :=
  match fuel, l with
  | S fuel', a :: b :: l' => (a, b) :: pairs_of fuel' l'
  | _, _ => []
  end.

(** [a.reshape(-1, 2)] *)
Definition reshape_pairs {A} (a : ndarray A) : res (list (A * A)) :=
  if Nat.even (length (flat a))
  then Ok (pairs_of (length (flat a)) (flat a))
  else Raise ValueError.

(** The vertices [x], [y] of the reference cell that is refined. *)
Definition base_triangulation (cell : Cell) : res (list float * list float) :=
  match cell with
  | triangle =>
      Ok ([Q2Qc 0; Q2Qc 0; Q2Qc 1], [Q2Qc 0; Q2Qc 1; Q2Qc 0])
  | quadrilateral =>
      Ok ([Q2Qc 0; Q2Qc 0; Q2Qc 1; Q2Qc 1],
          [Q2Qc 0; Q2Qc 1; Q2Qc 0; Q2Qc 1])
  | _ => Raise (RuntimeError "Unsupported Functionality"%string)
  end.

Definition two_dimension_triangle_Z (env : Env) (function : Function)
    (num_sample_points : Z) : res (Triangulation * list float) :=
  if negb (matplotlib_importable env) then Raise missing_dependency else
  base ← base_triangulation (ufl_cell (mesh function));
  sub_triangles ← subdivision_depth num_sample_points;
  let tri := refine_triangulation env base.1 base.2 sub_triangles in
  let triangles := ref_triangles tri in
  top ← array_max triangles;
  let num_verts := top + 1 in
  num_cells ← shape0 (cell_node_list (field function));
  let ref_points := points_of_pairs (ref_vertices tri) in
  z_vals ← _calculate_values (field function) ref_points 2 None;
  coords_vals ← _calculate_values (coordinates (mesh function)) ref_points 2 None;
  let Z := ravel z_vals in
  xy ← reshape_pairs coords_vals;
  let X := map fst xy in
  let Y := map snd xy in
  let all_triangles :=
    flat_map (fun c => map (map (fun v => v + c * num_verts)) triangles)
             (seq 0 num_cells) in
  triangulation ← mk_Triangulation X Y all_triangles;
  Ok (triangulation, Z).

Definition two_dimension_surface (env : Env) (function : Function)
    (num_sample_points : Z) : res Figure :=
  if negb (matplotlib_importable env) then Raise missing_dependency else
  tz ← two_dimension_triangle_Z env function num_sample_points;
  Ok [TriSurf tz.1 tz.2].

Definition two_dimension_contour (env : Env) (function : Function)
    (num_sample_points : Z) : res Figure :=
  if negb (matplotlib_importable env) then Raise missing_dependency else
  tz ← two_dimension_triangle_Z env function num_sample_points;
  Ok [TriContour tz.1 tz.2].

(** ** Bezier reconstructor *)

Definition matrix : Type := list (list float).

Definition factorial (n : nat) : Z := Z.of_nat (fact n).

(** Python 2: [/] on integers is floor division. *)
Definition _bernstein (x : float) (k n : nat) : res float :=
  if n <? k then Raise ValueError
  else
    let comb := (factorial n / factorial k / factorial (n - k))%Z in
    Ok (Qc_of_Z comb * x ^ k * (Q2Qc 1 - x) ^ (n - k))%Qc.

(** The 2x2 identity. *)
Definition identity2 : matrix :=
  [[Q2Qc 1; Q2Qc 0]; [Q2Qc 0; Q2Qc 1]].

(** [np.linalg.inv], by Gauss-Jordan elimination on [M | I]. *)
Definition unit_row (n i : nat) : list float :=
  map (fun j => if j =? i then Q2Qc 1 else Q2Qc 0) (seq 0 n).

Definition row_scale (c : float) (r : list float) : list float :=
  map (Qcmult c) r.

Definition row_sub (f : float) (p r : list float) : list float :=
  zip_with (fun a b => (a - f * b)%Qc) r p.

Fixpoint find_pivot (c : nat) (rows : matrix) : option (list float * matrix) :=
  match rows with
  | [] => None
  | r :: rs =>
      if decide (nth c r (Q2Qc 0) = Q2Qc 0) then
        match find_pivot c rs with
        | Some (p, others) => Some (p, r :: others)
        | None => None
        end
      else Some (r, rs)
  end.

Fixpoint eliminate (cols : list nat) (done todo : matrix) : option matrix :=
  match cols with
  | [] => Some done
  | c :: cs =>
      match find_pivot c todo with
      | None => None
      | Some (p, others) =>
          let p' := row_scale (/ nth c p (Q2Qc 0))%Qc p in
          let clear r := row_sub (nth c r (Q2Qc 0)) p' r in
          eliminate cs (map clear done ++ [p']) (map clear others)
      end
  end.

Definition linalg_inv (M : matrix) : res matrix :=
  let n := length M in
  if forallb (fun r => length r =? n) M then
    match eliminate (seq 0 n) [] (imap (fun i r => r ++ unit_row n i) M) with
    | Some rows => Ok (map (drop n) rows)
    | None => Raise LinAlgError
    end
  else Raise LinAlgError.

(** [basis[j].get_point_dict().keys()[0][0]] *)
Definition dual_point (basis : list (list (list float))) (j : nat) : res float :=
  match basis !! j with
  | None => Raise IndexError
  | Some ks =>
      match ks with
      | [] => Raise IndexError
      | pt :: _ =>
          match pt with
          | [] => Raise IndexError
          | x :: _ => Ok x
          end
      end
  end.

Fixpoint mapM {A B} (f : A -> res B) (l : list A) : res (list B) :=
  match l with
  | [] => Ok []
  | a :: l' => b ← f a; bs ← mapM f l'; Ok (b :: bs)
  end.

Definition bernstein_matrix (basis : list (list (list float))) (deg : nat)
  : res matrix :=
  mapM (fun i =>
          mapM (fun j => x ← dual_point basis j; _bernstein x i deg)
               (seq 0 (deg + 1)))
       (seq 0 (deg + 1)).

Definition dot_row (r : list float) (M : matrix) (ncols : nat) : list float :=
  map (fun l => fsum (fun m => (nth m r (Q2Qc 0)
                                * nth l (nth m M []) (Q2Qc 0))%Qc) (length M))
      (seq 0 ncols).

Fixpoint chunks {A} (fuel n : nat) (l : list A) : list (list A) :=
  match fuel, l with
  | S fuel', _ :: _ => take n l :: chunks fuel' n (drop n l)
  | _, _ => []
  end.

(** [np.dot(a, M)] for [a] of one or more dimensions and a square [M]: the
    last axis of [a] is contracted with the rows of [M]. *)
Definition dot_last (a : ndarray float) (M : matrix) : res (ndarray float) :=
  match last (shape a) with
  | None => Raise ValueError
  | Some w =>
      if w =? length M then
        Ok (mk_ndarray (removelast (shape a) ++ [length M])
              (concat (map (fun r => dot_row r M (length M))
                           (chunks (length (flat a)) w (flat a)))))
      else Raise ValueError
  end.

Definition _bezier_calculate_points (function : Field) : res (ndarray float) :=
  let deg := ufl_element_degree function in
  let basis := dual_basis (fiat_element function) in
  M ← bernstein_matrix basis deg;
  M_inv ← linalg_inv M;
  data ← take_rows (dat_data_ro function) (cell_node_list function);
  dot_last data M_inv.

(** [np.dstack((x, y))] *)
Definition atleast_3d (sh : list nat) : list nat :=
  match sh with
  | [] => [1; 1; 1]
  | [n] => [1; n; 1]
  | [m; n] => [m; n; 1]
  | _ => sh
  end.

Definition dstack (x y : ndarray float) : res (ndarray float) :=
  match atleast_3d (shape x), atleast_3d (shape y) with
  | a :: b :: c1 :: t, a' :: b' :: c2 :: t' =>
      if (a =? a') && (b =? b') && bool_decide (t = t') then
        let sx := c1 * prod_shape t in
        let sy := c2 * prod_shape t in
        Ok (mk_ndarray (a :: b :: (c1 + c2) :: t)
              (concat (zip_with app (chunks (length (flat x)) sx (flat x))
                                    (chunks (length (flat y)) sy (flat y)))))
      else Raise ValueError
  | _, _ => Raise ValueError
  end.

(** The path codes of one cell, by degree. *)
Definition bezier_codes (deg : nat) : res (list path_code) :=
  match deg with
  | 1 => Ok [MOVETO; LINETO]
  | 2 => Ok [MOVETO; CURVE3; CURVE3]
  | 3 => Ok [MOVETO; CURVE4; CURVE4; CURVE4]
  | _ => Raise KeyError
  end.

(** [np.tile(codes, n)] *)
Definition tile {A} (codes : list A) (n : nat) : list A :=
  concat (replicate n codes).

(** The body of [bezier_plot] past its degree-0 branch. *)
Definition bezier_plot_body (env : Env) (function : Function) : res Figure :=
  let deg := ufl_element_degree (field function) in
  y_vals ← _bezier_calculate_points (field function);
  let coords := interpolate_DG env (mesh function) deg (ExprX0 (mesh function)) in
  x_vals ← _bezier_calculate_points (field coords);
  vals ← dstack x_vals y_vals;
  vertices ← reshape_pairs vals;
  codes ← bezier_codes deg;
  num_cells ← shape0 (cell_node_list (field function));
  path ← mk_Path vertices (tile codes num_cells);
  Ok [PathPatch path].

(** A degree-0 function is first interpolated onto the degree-1
    discontinuous space, whose degree is 1, so the recursive call takes the
    other branch. *)
Definition bezier_plot (env : Env) (function : Function) : res Figure :=
  if negb (matplotlib_importable env) then Raise missing_dependency else
  if ufl_element_degree (field function) =? 0 then
    let func := interpolate_DG env (mesh function) 1 (ExprFunction function) in
    bezier_plot_body env func
  else bezier_plot_body env function.

(** ** Bezier interpolation of sampled points *)

Definition cubic_matrix : matrix :=
  [ [Q2Qc 1; Q2Qc 0; Q2Qc 0; Q2Qc 0];
    [Q2Qc (-5 # 6); Q2Qc 3; Q2Qc (-3 # 2); Q2Qc (1 # 3)];
    [Q2Qc (1 # 3); Q2Qc (-3 # 2); Q2Qc 3; Q2Qc (-5 # 6)];
    [Q2Qc 0; Q2Qc 0; Q2Qc 0; Q2Qc 1] ].

Definition combo (r : list float) (seg : list (float * float)) : float * float :=
  (fsum (fun m => (nth m r (Q2Qc 0) * (nth m seg (Q2Qc 0, Q2Qc 0)).1)%Qc) 4,
   fsum (fun m => (nth m r (Q2Qc 0) * (nth m seg (Q2Qc 0, Q2Qc 0)).2)%Qc) 4).

(** [np.dot(M, seg)] for one segment of four points. *)
Definition points_to_bezier_curve (seg : list (float * float))
  : list (float * float) :=
  map (fun r => combo r seg) cubic_matrix.

(** [rows + cols]: segment [s] reads the points [3s, 3s+1, 3s+2, 3s+3]. *)
Definition segment_index (n : Z) : list (list nat) :=
  map (fun s => map (fun r => r + s * 3) (seq 0 4))
      (seq 0 (Z.to_nat ((n - 1) / 3))).

Definition interp_bezier (env : Env) (pts : list float * list float)
    (num_cells : nat) : res Figure :=
  if negb (matplotlib_importable env) then Raise missing_dependency else
  let ptsT := combine pts.1 pts.2 in
  if (num_cells =? 0) || negb (length ptsT mod num_cells =? 0)
  then Raise ValueError else
  let n := length ptsT / num_cells in
  let idx := segment_index (Z.of_nat n) in
  per_cell ← mapM (fun i =>
                segs ← mapM (take_index (take n (drop (i * n) ptsT))) idx;
                Ok (concat (map points_to_bezier_curve segs)))
              (seq 0 num_cells);
  let vertices := concat per_cell in
  let codes := tile [MOVETO; CURVE4; CURVE4; CURVE4] (length vertices / 4) in
  path ← mk_Path vertices codes;
  Ok [PathPatch path].

(** ** Renderers

    The [axes] argument only selects where matplotlib draws; the figure a
    renderer returns is modelled by the artists the call adds to it. *)

(** The argument of [plot]: a function, or a sequence of arguments. *)
Inductive plot_arg : Type :=
| PFunction (f : Function)
| PList (l : list plot_arg).

Record kwargs : Type := {
  kw_bezier : bool;
  kw_contour : bool
}.

(** [int(num_sample_points / 3) * 3 + 1 if num_sample_points >= 4 else 4] *)
Definition adjust_sample_points (num_sample_points : Z) : Z :=
  if (4 <=? num_sample_points)%Z then (num_sample_points / 3 * 3 + 1)%Z else 4%Z.

Definition plot_function (env : Env) (function : Function)
    (num_sample_points : Z) (kw : kwargs) : res (option Figure) :=
  if negb (matplotlib_importable env) then Raise missing_dependency else
  let m := mesh function in
  if (geometric_dimension m =? topological_dimension m)
     && (topological_dimension m =? 1) then
    if ufl_element_degree (field function) <? 4 then
      fig ← bezier_plot env function; Ok (Some fig)
    else
      let bezier := kw_bezier kw in
      let num_sample_points :=
        if bezier then adjust_sample_points num_sample_points
        else num_sample_points in
      points ← calculate_one_dim_points function num_sample_points None;
      if bezier then
        fig ← interp_bezier env points (num_cells m); Ok (Some fig)
      else Ok (Some [Line2D points.1 points.2])
  else if (geometric_dimension m =? topological_dimension m)
          && (topological_dimension m =? 2) then
    if kw_contour kw then
      fig ← two_dimension_contour env function num_sample_points; Ok (Some fig)
    else
      fig ← two_dimension_surface env function num_sample_points; Ok (Some fig)
  else Raise unsupported_functionality.

(** [_plot_mult], given the renderer it calls on the first function. *)
Definition _plot_mult_with (env : Env)
    (plot : plot_arg -> Z -> kwargs -> res (option Figure))
    (functions : list plot_arg) (num_points : Z) (kw : kwargs)
  : res (option Figure) :=
  if negb (matplotlib_importable env) then Raise missing_dependency else
  match functions with
  | [] => Ok None
  | first :: _ =>
      drawn ← plot first num_points kw;
      Ok (Some (Widgets (length functions) :: default [] drawn))
  end.

Fixpoint plot (env : Env) (function : plot_arg) (num_sample_points : Z)
    (kw : kwargs) {struct function} : res (option Figure) :=
  match function with
  | PList functions =>
      _plot_mult_with env (plot env) functions num_sample_points kw
  | PFunction f => plot_function env f num_sample_points kw
  end.

Definition _plot_mult (env : Env) (functions : list plot_arg) (num_points : Z)
    (kw : kwargs) : res (option Figure) :=
  _plot_mult_with env (plot env) functions num_points kw.

Definition interactive_multiple_plot (env : Env) (functions : list plot_arg)
    (num_sample_points : Z) (kw : kwargs) : res (option Figure) :=
  if negb (ipywidgets_importable env) then Raise not_a_notebook else
  let display_plot index :=
    match functions !! index with
    | None => Raise IndexError
    | Some f => plot env f num_sample_points kw
    end in
  _ ← interact env display_plot (Z.of_nat (length functions) - 1);
  Ok None.

(** ** Concrete elements, meshes and functions *)

Module Examples.

Definition q (a : Z) (b : positive) : float := Q2Qc (a # b).

(** Nodes of the degree-[deg] Lagrange element on the reference interval,
    endpoints first. *)
Definition lagrange_nodes (deg : nat) : list float :=
  match deg with
  | 0 => [q 1 2]
  | _ => Q2Qc 0 :: Q2Qc 1
         :: map (fun i => (Qc_of_Z (Z.of_nat i) / Qc_of_Z (Z.of_nat deg))%Qc)
                (seq 1 (deg - 1))
  end.

Definition lagrange_basis (nodes : list float) (j : nat) (x : float) : float :=
  let xj := nth j nodes (Q2Qc 0) in
  foldr (fun k acc =>
           if k =? j then acc
           else ((x - nth k nodes (Q2Qc 0)) / (xj - nth k nodes (Q2Qc 0)) * acc)%Qc)
        (Q2Qc 1) (seq 0 (length nodes)).

Definition lagrange_interval (deg : nat) : FiatElement :=
  let nodes := lagrange_nodes deg in
  {| tabulate := fun order points =>
       Ok [([order],
            mk_ndarray [length nodes; length (flat points)]
              (flat_map (fun j => map (lagrange_basis nodes j) (flat points))
                        (seq 0 (length nodes))))];
     dual_basis := map (fun x => [[x]]) nodes |}.

(** The degree-1 element on the reference triangle: 1 - x - y, x, y. *)
Definition p1_triangle : FiatElement :=
  {| tabulate := fun order points =>
       let pts := pairs_of (length (flat points)) (flat points) in
       Ok [([order; order],
            mk_ndarray [3; length pts]
              (map (fun p => (Q2Qc 1 - p.1 - p.2)%Qc) pts
               ++ map fst pts ++ map snd pts))];
     dual_basis := [[[Q2Qc 0; Q2Qc 0]]; [[Q2Qc 1; Q2Qc 0]]; [[Q2Qc 0; Q2Qc 1]]] |}.

(** The unit interval in two cells, with vertices at 0, 1/2 and 1. *)
Definition interval_coordinates : Field :=
  {| ufl_element_degree := 1;
     fiat_element := lagrange_interval 1;
     cell_node_list := mk_ndarray [2; 2] [0; 1; 1; 2];
     dat_data_ro := mk_ndarray [3] [Q2Qc 0; q 1 2; Q2Qc 1];
     ufl_shape := [1] |}.

Definition interval_mesh : Mesh :=
  {| ufl_cell := interval;
     geometric_dimension := 1;
     topological_dimension := 1;
     num_cells := 2;
     coordinates := interval_coordinates |}.

(** f(x) = x as a scalar degree-1 function, and as a one-component vector. *)
Definition identity_scalar : Function :=
  {| field := {| ufl_element_degree := 1;
                 fiat_element := lagrange_interval 1;
                 cell_node_list := mk_ndarray [2; 2] [0; 1; 1; 2];
                 dat_data_ro := mk_ndarray [3] [Q2Qc 0; q 1 2; Q2Qc 1];
                 ufl_shape := [] |};
     mesh := interval_mesh |}.

Definition identity_vector : Function :=
  {| field := interval_coordinates; mesh := interval_mesh |}.

(** A discontinuous degree-4 function on the same mesh. *)
Definition quartic : Function :=
  {| field := {| ufl_element_degree := 4;
                 fiat_element := lagrange_interval 4;
                 cell_node_list := mk_ndarray [2; 5] (seq 0 10);
                 dat_data_ro :=
                   mk_ndarray [10]
                     [Q2Qc 0; q 1 16; q 1 4096; q 1 256; q 81 4096;
                      q 1 16; Q2Qc 1; q 625 4096; q 81 256; q 2401 4096];
                 ufl_shape := [] |};
     mesh := interval_mesh |}.

(** The unit square in two triangles, and f(x, y) = x + y on it. *)
Definition square_coordinates : Field :=
  {| ufl_element_degree := 1;
     fiat_element := p1_triangle;
     cell_node_list := mk_ndarray [2; 3] [0; 1; 2; 3; 2; 1];
     dat_data_ro :=
       mk_ndarray [4; 2]
         [Q2Qc 0; Q2Qc 0; Q2Qc 1; Q2Qc 0; Q2Qc 0; Q2Qc 1; Q2Qc 1; Q2Qc 1];
     ufl_shape := [2] |}.

Definition square_mesh : Mesh :=
  {| ufl_cell := triangle;
     geometric_dimension := 2;
     topological_dimension := 2;
     num_cells := 2;
     coordinates := square_coordinates |}.

Definition sum_xy : Function :=
  {| field := {| ufl_element_degree := 1;
                 fiat_element := p1_triangle;
                 cell_node_list := mk_ndarray [2; 3] [0; 1; 2; 3; 2; 1];
                 dat_data_ro := mk_ndarray [4] [Q2Qc 0; Q2Qc 1; Q2Qc 1; q 2 1];
                 ufl_shape := [] |};
     mesh := square_mesh |}.

(** One tetrahedron; [plot] reads only the dimensions of its mesh. *)
Definition solid_mesh : Mesh :=
{| ufl_cell := tetrahedron;
   geometric_dimension := 3;
   topological_dimension := 3;
   num_cells := 1;
   coordinates := {| ufl_element_degree := 1;
                     fiat_element := lagrange_interval 1;
                     cell_node_list := mk_ndarray [1; 4] [0; 1; 2; 3];
                     dat_data_ro :=
                       mk_ndarray [4; 3]
                         [Q2Qc 0; Q2Qc 0; Q2Qc 0; Q2Qc 1; Q2Qc 0; Q2Qc 0;
                          Q2Qc 0; Q2Qc 1; Q2Qc 0; Q2Qc 0; Q2Qc 0; Q2Qc 1];
                     ufl_shape := [3] |} |}.

Definition solid_function : Function :=
{| field := {| ufl_element_degree := 1;
               fiat_element := lagrange_interval 1;
               cell_node_list := mk_ndarray [1; 4] [0; 1; 2; 3];
               dat_data_ro := mk_ndarray [4] [Q2Qc 0; Q2Qc 1; Q2Qc 1; Q2Qc 1];
               ufl_shape := [] |};
   mesh := solid_mesh |}.

Definition nodal_values (f : Field) (deg : nat) : ndarray float :=
  let nodes := lagrange_nodes deg in
  match _calculate_values f (mk_ndarray [length nodes; 1] nodes) 1 None with
  | Ok v => mk_ndarray [length (flat v)] (flat v)
  | Raise _ => mk_ndarray [0] []
  end.

(** An environment with both libraries: the refiner answers with the base
    triangulation (subdivision depth 0), discontinuous spaces number their
    nodes cell by cell, interpolation evaluates at the nodes, and [interact]
    calls its function once with the initial index 0. *)
Definition with_libraries : Env :=
  {| matplotlib_importable := true;
     ipywidgets_importable := true;
     refine_triangulation := fun x y _ =>
       {| ref_vertices := combine x y;
          ref_triangles := if length x =? 3 then [[0; 1; 2]]
                           else [[0; 1; 2]; [1; 3; 2]] |};
     DG_fiat_element := fun _ deg => lagrange_interval deg;
     DG_cell_node_list := fun m deg =>
       mk_ndarray [num_cells m; deg + 1] (seq 0 (num_cells m * (deg + 1)));
     interpolate_data := fun m deg e =>
       match e with
       | ExprFunction f => nodal_values (field f) deg
       | ExprX0 m' => nodal_values (coordinates m') deg
       end;
     interact := fun display _ => _ ← display 0; Ok tt |}.

(** The same environment without the plotting library. *)
Definition without_matplotlib : Env :=
  {| matplotlib_importable := false;
     ipywidgets_importable := ipywidgets_importable with_libraries;
     refine_triangulation := refine_triangulation with_libraries;
     DG_fiat_element := DG_fiat_element with_libraries;
     DG_cell_node_list := DG_cell_node_list with_libraries;
     interpolate_data := interpolate_data with_libraries;
     interact := interact with_libraries |}.

Definition no_kwargs : kwargs := {| kw_bezier := false; kw_contour := false |}.
Definition bezier_kwargs : kwargs := {| kw_bezier := true; kw_contour := false |}.

End Examples.

(** ** Reference notions the properties are stated against *)

(** The point at parameter [t] of the cubic Bezier curve with control points
    [c], in Bernstein form: what a [MOVETO; CURVE4; CURVE4; CURVE4] path
    segment draws. *)
Definition bezier_point (c : list (float * float)) (t : float)
  : res (float * float) :=
  w ← mapM (fun k => _bernstein t k 3) (seq 0 4);
  Ok (fsum (fun k => (nth k w (Q2Qc 0) * (nth k c (Q2Qc 0, Q2Qc 0)).1)%Qc) 4,
      fsum (fun k => (nth k w (Q2Qc 0) * (nth k c (Q2Qc 0, Q2Qc 0)).2)%Qc) 4).

(** The binomial coefficient, by Pascal's rule. *)
Fixpoint binomial (n k : nat) : nat :=
  match n, k with
  | _, 0 => 1
  | 0, S _ => 0
  | S n', S k' => binomial n' k' + binomial n' (S k')
  end.

(** * Properties *)

(** ** Results *)

Lemma bind_Ok {A B} (m : res A) (f : A -> res B) (b : B) :
  m ≫= f = Ok b -> exists a, m = Ok a /\ f a = Ok b.
Proof. destruct m as [a|e]; simpl; [eauto | discriminate]. Qed.

Lemma bind_Raise {A B} (m : res A) (f : A -> res B) (e : exn) :
  m ≫= f = Raise e -> m = Raise e \/ exists a, m = Ok a /\ f a = Raise e.
Proof. destruct m as [a|e']; simpl; [eauto | intros [= ->]; auto]. Qed.

Lemma bind_Ok_l {A B} (a : A) (f : A -> res B) : Ok a ≫= f = f a.
Proof. reflexivity. Qed.

Lemma bind_Raise_l {A B} (e : exn) (f : A -> res B) : Raise e ≫= f = Raise e.
Proof. reflexivity. Qed.

Ltac bind_inv H :=
  let a := fresh "a" in
  let Ha := fresh "H" a in
  apply bind_Ok in H; destruct H as (a & Ha & H).

(** ** Sample counts of the Bezier interpolation *)

Lemma adjust_sample_points_bounds (n : Z) :
  (4 <= adjust_sample_points n)%Z /\ (adjust_sample_points n mod 3 = 1)%Z.
Proof.
  unfold adjust_sample_points.
  destruct (4 <=? n)%Z eqn:Hn; [apply Z.leb_le in Hn | split; [lia | reflexivity]].
  split.
  - pose proof (Z.div_mod n 3 ltac:(lia)) as Hd.
    pose proof (Z.mod_pos_bound n 3 ltac:(lia)). lia.
  - rewrite Z.add_comm, Z.mod_add by lia. reflexivity.
Qed.

Lemma segment_index_lookup (m : Z) (s : nat) (row : list nat) :
  segment_index m !! s = Some row ->
  row = [3 * s; 3 * s + 1; 3 * s + 2; 3 * s + 3]
  /\ s < Z.to_nat ((m - 1) / 3).
Proof.
  unfold segment_index. intros H.
  change (map ?f ?l) with (f <$> l) in H.
  rewrite list_lookup_fmap in H.
  destruct (seq 0 (Z.to_nat ((m - 1) / 3)) !! s) as [s'|] eqn:Hs; [|discriminate].
  apply lookup_seq in Hs as [-> Hlt]. simpl in H. injection H as <-.
  split; [|exact Hlt]. simpl. repeat f_equal; lia.
Qed.

(** C10. When [plot] is given a one-dimensional function of degree 4 or more
    and the [bezier] option, it samples [m = adjust_sample_points n] points per
    cell and hands them to [interp_bezier]; for every requested [n], [m >= 4]
    and [m mod 3 = 1], and the [m] points of a cell are read as exactly
    [(m - 1) / 3] cubic segments of 4 points: segment [s] reads points
    [3s .. 3s+3], all below [m], consecutive segments meet at a shared end
    point, and every one of the [m] points belongs to a segment. *)
Theorem plot_bezier_sample_count (env : Env) (f : Function) (n : Z) (kw : kwargs) :
  matplotlib_importable env = true ->
  geometric_dimension (mesh f) = 1 ->
  topological_dimension (mesh f) = 1 ->
  4 <= ufl_element_degree (field f) ->
  kw_bezier kw = true ->
  let m := adjust_sample_points n in
  plot env (PFunction f) n kw
    = (points ← calculate_one_dim_points f m None;
       fig ← interp_bezier env points (num_cells (mesh f));
       Ok (Some fig))
  /\ (4 <= m)%Z
  /\ (m mod 3 = 1)%Z
  /\ length (segment_index m) = Z.to_nat ((m - 1) / 3)
  /\ (forall s row, segment_index m !! s = Some row ->
        row = [3 * s; 3 * s + 1; 3 * s + 2; 3 * s + 3]
        /\ (Z.of_nat (3 * s + 3) < m)%Z)
  /\ (forall i, (Z.of_nat i < m)%Z ->
        exists s row, segment_index m !! s = Some row /\ i ∈ row).
Proof.
  intros Hmpl Hg Ht Hdeg Hbez m.
  destruct (adjust_sample_points_bounds n) as [Hm4 Hm3]. fold m in Hm4, Hm3.
  split.
  { simpl. unfold plot_function. rewrite Hmpl, Hg, Ht, Hbez. simpl.
    destruct (ufl_element_degree (field f) <? 4) eqn:Hlt.
    - apply Nat.ltb_lt in Hlt. lia.
    - reflexivity. }
  clearbody m.
  assert (Hsegs : (m = 3 * ((m - 1) / 3) + 1)%Z)
    by (Z.to_euclidean_division_equations; lia).
  split; [exact Hm4|split; [exact Hm3|split; [|split]]].
  - unfold segment_index. rewrite length_map, length_seq. reflexivity.
  - intros s row Hrow. apply segment_index_lookup in Hrow as [-> Hs].
    split; [reflexivity | lia].
  - intros i Hi.
    assert (Hcases : i = 0 \/ 0 < i) by lia.
    destruct Hcases as [-> | Hpos].
    + exists 0, [0; 1; 2; 3]. split; [|constructor].
      unfold segment_index.
      change (map ?g ?l) with (g <$> l). rewrite list_lookup_fmap.
      rewrite lookup_seq_lt by lia. reflexivity.
    + exists ((i - 1) / 3), (map (fun r => r + (i - 1) / 3 * 3) (seq 0 4)).
      pose proof (Nat.div_mod (i - 1) 3 ltac:(lia)) as Hd.
      pose proof (Nat.mod_upper_bound (i - 1) 3 ltac:(lia)) as Hr.
      split.
      * unfold segment_index.
        change (map ?g ?l) with (g <$> l) at 1. rewrite list_lookup_fmap.
        rewrite lookup_seq_lt; [reflexivity|].
        assert (Z.of_nat ((i - 1) / 3) < (m - 1) / 3)%Z; [|lia].
        rewrite Nat2Z.inj_div. apply Z.div_lt_upper_bound; lia.
      * apply list_elem_of_In, in_map_iff.
        exists (S ((i - 1) mod 3)). split; [lia|].
        apply in_seq. lia.
Qed.

Lemma plot_bezier_sample_count_witness :
  ufl_element_degree (field Examples.quartic) = 4
  /\ adjust_sample_points 10 = 10%Z
  /\ plot Examples.with_libraries (PFunction Examples.quartic) 10
          Examples.bezier_kwargs
     = (points ← calculate_one_dim_points Examples.quartic 10 None;
        fig ← interp_bezier Examples.with_libraries points 2;
        Ok (Some fig)).
Proof.
  split; [reflexivity|]. split; [reflexivity|].
  exact (proj1 (plot_bezier_sample_count Examples.with_libraries Examples.quartic
                  10 Examples.bezier_kwargs eq_refl eq_refl eq_refl
                  (le_n 4) eq_refl)).
Defined.

(** ** The sampling grid *)

Lemma linspace_nat (n : nat) :
  linspace (Q2Qc 0) (Q2Qc 1) (Z.of_nat n)
  = Ok (map (fun i => (Qc_of_Z (Z.of_nat i) / Qc_of_Z (Z.of_nat n - 1))%Qc)
            (seq 0 n)).
Proof.
  unfold linspace.
  destruct (Z.of_nat n <? 0)%Z eqn:Hneg; [apply Z.ltb_lt in Hneg; lia|].
  rewrite Nat2Z.id. f_equal. apply map_ext. intros i.
  unfold Qcdiv. ring.
Qed.

Lemma Qc_of_Z_le (a b : Z) : (a <= b)%Z -> (Qc_of_Z a <= Qc_of_Z b)%Qc.
Proof. exact (proj1 (Z2Qc_inj_le a b)). Qed.

Lemma Qc_of_Z_nonneg (a : Z) : (0 <= a)%Z -> (Q2Qc 0 <= Qc_of_Z a)%Qc.
Proof. intros H. rewrite <- Z2Qc_inj_0. by apply Qc_of_Z_le. Qed.

Lemma Qc_of_Z_pos (a : Z) : (0 < a)%Z -> (Q2Qc 0 < Qc_of_Z a)%Qc.
Proof. intros H. rewrite <- Z2Qc_inj_0. by apply (proj1 (Z2Qc_inj_lt 0 a)). Qed.

Lemma grid_point_nonneg (n i : nat) :
  i < n -> (Q2Qc 0 <= Qc_of_Z (Z.of_nat i) / Qc_of_Z (Z.of_nat n - 1))%Qc.
Proof.
  intros Hin. unfold Qcdiv. apply Qcmult_nonneg_nonneg.
  - apply Qc_of_Z_nonneg. lia.
  - destruct (decide (Z.of_nat n - 1 <= 0)%Z) as [Hle|Hgt].
    + replace (Z.of_nat n - 1)%Z with 0%Z by lia. by vm_compute.
    + apply Qclt_le_weak, Qcinv_pos, Qc_of_Z_pos. lia.
Qed.

Lemma grid_points_sum (n a c : nat) :
  a + c <= n - 1 -> a < n ->
  (Qc_of_Z (Z.of_nat a) / Qc_of_Z (Z.of_nat n - 1)
   + Qc_of_Z (Z.of_nat c) / Qc_of_Z (Z.of_nat n - 1) <= Q2Qc 1)%Qc.
Proof.
  intros Hac Han. unfold Qcdiv.
  rewrite <- Qcmult_plus_distr_l, <- Z2Qc_inj_add.
  destruct (decide (n = 1)) as [-> | Hn].
  - replace (Z.of_nat a + Z.of_nat c)%Z with 0%Z by lia. by vm_compute.
  - assert (Hd : (Q2Qc 0 < Qc_of_Z (Z.of_nat n - 1))%Qc).
    { apply Qc_of_Z_pos. lia. }
    rewrite <- (Qcmult_inv_r (Qc_of_Z (Z.of_nat n - 1))).
    + apply Qcmult_le_mono_nonneg_r.
      * apply Qclt_le_weak, Qcinv_pos, Hd.
      * apply Qc_of_Z_le. lia.
    + intros Heq. rewrite Heq in Hd. by apply Qclt_not_eq in Hd.
Qed.



Lemma grid_lookup (n i : nat) (x : float) :
  map (fun i => (Qc_of_Z (Z.of_nat i) / Qc_of_Z (Z.of_nat n - 1))%Qc) (seq 0 n)
    !! i = Some x ->
  i < n /\ x = (Qc_of_Z (Z.of_nat i) / Qc_of_Z (Z.of_nat n - 1))%Qc.
Proof.
  intros H. change (map ?f ?l) with (f <$> l) in H.
  rewrite list_lookup_fmap in H.
  destruct (seq 0 n !! i) as [j|] eqn:Hj; [|discriminate].
  apply lookup_seq in Hj as [-> Hlt]. simpl in H. injection H as <-. auto.
Qed.

Lemma length_concat_const {A} (ls : list (list A)) (k : nat) :
  Forall (fun l => length l = k) ls -> length (concat ls) = length ls * k.
Proof.
  induction 1 as [|l ls Hl _ IH]; [reflexivity|].
  simpl. rewrite length_app, IH, Hl. reflexivity.
Qed.

Lemma length_flat_map_const {A B} (f : A -> list B) (l : list A) (k : nat) :
  (forall a, length (f a) = k) -> length (flat_map f l) = length l * k.
Proof.
  intros Hf. induction l as [|a l IH]; [reflexivity|].
  simpl. rewrite length_app, IH, Hf. reflexivity.
Qed.

(** C7. For every point count [n], the generator returns exactly [n] points
    for an interval cell, point [i] being [i / (n - 1)] (the single point of
    [n = 1] is 0), and exactly [n * n] two-dimensional points for a
    quadrilateral cell. *)
Theorem sample_points_counts (n : nat) :
  (exists pts, sample_points interval (Z.of_nat n) = Ok pts
     /\ shape pts = [n; 1]
     /\ flat pts
        = map (fun i => (Qc_of_Z (Z.of_nat i) / Qc_of_Z (Z.of_nat n - 1))%Qc)
              (seq 0 n)
     /\ (n = 1 -> flat pts = [Q2Qc 0]))
  /\ (exists pts, sample_points quadrilateral (Z.of_nat n) = Ok pts
        /\ shape pts = [n * n; 2]
        /\ length (flat pts) = n * n * 2).
Proof.
  split.
  - eexists. unfold sample_points. rewrite linspace_nat. simpl.
    split; [reflexivity|].
    split; [simpl; by rewrite length_map, length_seq|].
    split; [reflexivity|].
    intros ->. simpl. f_equal.
  - eexists. unfold sample_points. rewrite linspace_nat. simpl.
    split; [reflexivity|].
    set (p := map _ (seq 0 n)).
    assert (Hp : length p = n) by (unfold p; rewrite length_map, length_seq; done).
    clearbody p.
    assert (Hlen : length (concat (meshgrid_T p p)) = n * n).
    { rewrite (length_concat_const _ n).
      - unfold meshgrid_T. rewrite length_map, Hp. reflexivity.
      - unfold meshgrid_T. apply Forall_forall. intros l Hl.
        apply list_elem_of_In, in_map_iff in Hl as (x & <- & _).
        rewrite length_map. exact Hp. }
    unfold points_of_pairs. simpl. rewrite Hlen.
    split; [reflexivity|].
    rewrite (length_flat_map_const _ _ 2) by reflexivity. rewrite Hlen. reflexivity.
Qed.





(** ** Bezier control points of a degree-1 function *)

Lemma bernstein_matrix_degree_one (basis : list (list (list float))) :
  dual_point basis 0 = Ok (Q2Qc 0) ->
  dual_point basis 1 = Ok (Q2Qc 1) ->
  bernstein_matrix basis 1 = Ok identity2.
Proof.
  intros H0 H1. unfold bernstein_matrix. simpl. rewrite H0, H1. simpl.
  unfold identity2. repeat f_equal; by apply Qc_is_canon.
Qed.

Lemma linalg_inv_identity2 : linalg_inv identity2 = Ok identity2.
Proof.
  vm_compute. unfold identity2. repeat f_equal; by apply Qc_is_canon.
Qed.

Lemma dot_row_identity2 (a b : float) :
  dot_row [a; b] identity2 2 = [a; b].
Proof.
  unfold dot_row, fsum. simpl. f_equal; [ring | f_equal; ring].
Qed.

Lemma chunks_dot_identity2 (fuel : nat) (l : list float) :
  length l <= fuel -> Nat.even (length l) = true ->
  concat (map (fun r => dot_row r identity2 2) (chunks fuel 2 l)) = l.
Proof.
  revert l. induction fuel as [|fuel IH]; intros l Hlen Heven.
  - destruct l; [reflexivity | simpl in Hlen; lia].
  - destruct l as [|a [|b l]]; [reflexivity | discriminate |].
    cbn [chunks take drop map concat]. rewrite dot_row_identity2.
    cbn [app]. do 2 f_equal. apply IH; [simpl in Hlen; lia | exact Heven].
Qed.

Lemma prod_shape_app (s t : list nat) :
  prod_shape (s ++ t) = prod_shape s * prod_shape t.
Proof.
  induction s as [|n s IH]; simpl; [lia|]. unfold prod_shape in *. simpl.
  rewrite IH. lia.
Qed.

Lemma dot_last_identity2 (a : ndarray float) :
  wf_ndarray a -> last (shape a) = Some 2 -> dot_last a identity2 = Ok a.
Proof.
  intros Hwf Hlast. unfold dot_last. rewrite Hlast. simpl.
  apply last_Some in Hlast as [sh Hsh].
  destruct a as [s fl]. simpl in *. subst s.
  rewrite removelast_last. f_equal. f_equal.
  apply chunks_dot_identity2; [lia|].
  unfold wf_ndarray in Hwf. simpl in Hwf. rewrite Hwf, prod_shape_app.
  change (prod_shape [2]) with 2. rewrite Nat.mul_comm.
  apply Nat.even_spec. exists (prod_shape sh). lia.
Qed.

(** C1. For a degree-1 function whose two degrees of freedom sit at the
    reference coordinates 0 and 1, the Bernstein matrix [M] is the 2x2
    identity, so is its inverse, and the Bezier control-point values are the
    gathered nodal values themselves. *)
Theorem bezier_degree_one_round_trip (f : Field) (nodal : ndarray float) :
  ufl_element_degree f = 1 ->
  dual_point (dual_basis (fiat_element f)) 0 = Ok (Q2Qc 0) ->
  dual_point (dual_basis (fiat_element f)) 1 = Ok (Q2Qc 1) ->
  take_rows (dat_data_ro f) (cell_node_list f) = Ok nodal ->
  wf_ndarray nodal ->
  last (shape nodal) = Some 2 ->
  bernstein_matrix (dual_basis (fiat_element f)) (ufl_element_degree f)
    = Ok identity2
  /\ linalg_inv identity2 = Ok identity2
  /\ _bezier_calculate_points f = Ok nodal.
Proof.
  intros Hdeg H0 H1 Hrows Hwf Hlast.
  assert (HM : bernstein_matrix (dual_basis (fiat_element f))
                 (ufl_element_degree f) = Ok identity2).
  { rewrite Hdeg. by apply bernstein_matrix_degree_one. }
  split; [exact HM|]. split; [exact linalg_inv_identity2|].
  unfold _bezier_calculate_points.
  rewrite HM, bind_Ok_l, linalg_inv_identity2, bind_Ok_l, Hrows, bind_Ok_l.
  by apply dot_last_identity2.
Qed.

Lemma bezier_degree_one_round_trip_witness :
  take_rows (dat_data_ro (field Examples.identity_scalar))
            (cell_node_list (field Examples.identity_scalar))
    = Ok (mk_ndarray [2; 2] [Q2Qc 0; Examples.q 1 2; Examples.q 1 2; Q2Qc 1])
  /\ _bezier_calculate_points (field Examples.identity_scalar)
     = Ok (mk_ndarray [2; 2] [Q2Qc 0; Examples.q 1 2; Examples.q 1 2; Q2Qc 1]).
Proof.
  split; [reflexivity|].
  exact (proj2 (proj2 (bezier_degree_one_round_trip
                         (field Examples.identity_scalar)
                         (mk_ndarray [2; 2]
                            [Q2Qc 0; Examples.q 1 2; Examples.q 1 2; Q2Qc 1])
                         eq_refl eq_refl eq_refl eq_refl eq_refl eq_refl))).
Defined.

(** ** Renderer dispatch *)

Lemma missing_dependency_not_unsupported :
  missing_dependency <> unsupported_functionality.
Proof. discriminate. Qed.

(** C8. With the plotting library importable, a single function whose mesh
    (geometric, topological) dimension pair is neither (1, 1) nor (2, 2)
    makes [plot] raise the unsupported-functionality error. *)
Theorem plot_unsupported_dimensions (env : Env) (f : Function) (n : Z)
    (kw : kwargs) :
  matplotlib_importable env = true ->
  (geometric_dimension (mesh f), topological_dimension (mesh f)) <> (1, 1) ->
  (geometric_dimension (mesh f), topological_dimension (mesh f)) <> (2, 2) ->
  plot env (PFunction f) n kw = Raise unsupported_functionality.
Proof.
  intros Henv H1 H2. simpl. unfold plot_function. rewrite Henv. simpl.
  destruct (geometric_dimension (mesh f) =? topological_dimension (mesh f)) eqn:Hgt;
    [|reflexivity].
  apply Nat.eqb_eq in Hgt. rewrite Hgt in H1, H2. simpl.
  destruct (topological_dimension (mesh f) =? 1) eqn:Ht1.
  { apply Nat.eqb_eq in Ht1. rewrite Ht1 in H1. congruence. }
  destruct (topological_dimension (mesh f) =? 2) eqn:Ht2.
  { apply Nat.eqb_eq in Ht2. rewrite Ht2 in H2. congruence. }
  reflexivity.
Qed.

Lemma plot_unsupported_dimensions_witness :
  (geometric_dimension (mesh Examples.solid_function),
   topological_dimension (mesh Examples.solid_function)) = (3, 3)
  /\ plot Examples.with_libraries (PFunction Examples.solid_function) 100
          Examples.no_kwargs
     = Raise unsupported_functionality.
Proof.
  split; [reflexivity|].
  exact (plot_unsupported_dimensions Examples.with_libraries
           Examples.solid_function 100 Examples.no_kwargs
           eq_refl ltac:(discriminate) ltac:(discriminate)).
Defined.

Lemma plot_function_returns_figure (env : Env) (f : Function) (n : Z)
    (kw : kwargs) (r : option Figure) :
  plot_function env f n kw = Ok r -> exists fig, r = Some fig.
Proof.
  unfold plot_function. intros H.
  repeat match type of H with
         | (if ?b then _ else _) = _ => destruct b
         | (_ ≫= _) = Ok _ => bind_inv H
         | (let _ := _ in _) = _ => cbv zeta in H
         end;
    try discriminate; injection H as <-; eauto.
Qed.

Lemma _plot_mult_nonempty_returns_figure (env : Env) (first : plot_arg)
    (rest : list plot_arg) (n : Z) (kw : kwargs) (r : option Figure) :
  _plot_mult env (first :: rest) n kw = Ok r -> exists fig, r = Some fig.
Proof.
  unfold _plot_mult, _plot_mult_with. intros H.
  destruct (negb (matplotlib_importable env)); [discriminate|].
  bind_inv H. injection H as <-. eauto.
Qed.

(** C9, as the code has it. [plot] on a single function, and [plot] and
    [_plot_mult] on a non-empty sequence, either return a figure or raise.
    On an empty sequence they return [None] when the plotting library imports
    and raise the missing-dependency error otherwise.  The notebook renderer
    never returns a figure: it returns [None] or raises. *)
Theorem renderers_figure_none_or_raise (env : Env) (n : Z) (kw : kwargs) :
  (forall f r, plot env (PFunction f) n kw = Ok r -> exists fig, r = Some fig)
  /\ (forall first rest r,
        plot env (PList (first :: rest)) n kw = Ok r -> exists fig, r = Some fig)
  /\ (forall first rest r,
        _plot_mult env (first :: rest) n kw = Ok r -> exists fig, r = Some fig)
  /\ plot env (PList []) n kw
     = (if matplotlib_importable env then Ok None else Raise missing_dependency)
  /\ _plot_mult env [] n kw
     = (if matplotlib_importable env then Ok None else Raise missing_dependency)
  /\ (forall functions r,
        interactive_multiple_plot env functions n kw = Ok r -> r = None).
Proof.
  split; [|split; [|split; [|split; [|split]]]].
  - intros f r H. by eapply plot_function_returns_figure.
  - intros first rest r H. by eapply _plot_mult_nonempty_returns_figure.
  - intros first rest r H. by eapply _plot_mult_nonempty_returns_figure.
  - simpl. unfold _plot_mult_with. by destruct (matplotlib_importable env).
  - unfold _plot_mult, _plot_mult_with. by destruct (matplotlib_importable env).
  - intros functions r H. unfold interactive_multiple_plot in H.
    destruct (negb (ipywidgets_importable env)); [discriminate|].
    bind_inv H. by injection H as <-.
Qed.

(** C9, as stated, fails: with both libraries present, [plot] on the empty
    sequence returns without a figure, and so does the notebook renderer on a
    one-function sequence; [plot] on that function does return a figure. *)
Lemma renderers_return_without_figure :
  plot Examples.with_libraries (PList []) 100 Examples.no_kwargs = Ok None
  /\ _plot_mult Examples.with_libraries [] 10 Examples.no_kwargs = Ok None
  /\ interactive_multiple_plot Examples.with_libraries
       [PFunction Examples.identity_scalar] 10 Examples.no_kwargs = Ok None
  /\ exists fig, plot Examples.with_libraries
                   (PFunction Examples.identity_scalar) 10 Examples.no_kwargs
                 = Ok (Some fig).
Proof.
  split; [reflexivity|]. split; [reflexivity|]. split.
  - by vm_compute.
  - eexists. vm_compute. reflexivity.
Qed.

(** ** The Bezier reconstructor above degree 3 *)

Lemma numerical_not_unsupported (e : exn) :
  numerical e -> e <> unsupported_functionality.
Proof. intros H ->. exact H. Qed.

Lemma mapM_numerical {A B} (f : A -> res B) (l : list A) (e : exn) :
  (forall a e', f a = Raise e' -> numerical e') ->
  mapM f l = Raise e -> numerical e.
Proof.
  intros Hf. induction l as [|a l IH]; simpl; [discriminate|].
  intros H. apply bind_Raise in H as [H | (b & _ & H)]; [by eapply Hf|].
  apply bind_Raise in H as [H | (bs & _ & H)]; [auto | discriminate].
Qed.

Lemma dual_point_numerical basis j e : dual_point basis j = Raise e -> numerical e.
Proof.
  unfold dual_point. intros H.
  repeat match type of H with
         | match ?x with _ => _ end = _ => destruct x
         end; try discriminate; by injection H as <-.
Qed.

Lemma _bernstein_numerical x k n e : _bernstein x k n = Raise e -> numerical e.
Proof.
  unfold _bernstein. destruct (n <? k); [|discriminate]. by intros [= <-].
Qed.

Lemma bernstein_matrix_numerical basis deg e :
  bernstein_matrix basis deg = Raise e -> numerical e.
Proof.
  unfold bernstein_matrix. apply mapM_numerical. intros i e'.
  apply mapM_numerical. intros j e'' H.
  apply bind_Raise in H as [H | (x & _ & H)];
    [by eapply dual_point_numerical | by eapply _bernstein_numerical].
Qed.

Lemma linalg_inv_numerical M e : linalg_inv M = Raise e -> numerical e.
Proof.
  unfold linalg_inv. intros H.
  repeat match type of H with
         | (if ?b then _ else _) = _ => destruct b
         | match ?x with _ => _ end = _ => destruct x
         end; try discriminate; by injection H as <-.
Qed.

Lemma take_rows_numerical {A} (a : ndarray A) idx e :
  take_rows a idx = Raise e -> numerical e.
Proof.
  unfold take_rows. intros H.
  repeat match type of H with
         | (if ?b then _ else _) = _ => destruct b
         | match ?x with _ => _ end = _ => destruct x
         end; try discriminate; by injection H as <-.
Qed.

Lemma dot_last_numerical a M e : dot_last a M = Raise e -> numerical e.
Proof.
  unfold dot_last. intros H.
  repeat match type of H with
         | (if ?b then _ else _) = _ => destruct b
         | match ?x with _ => _ end = _ => destruct x
         end; try discriminate; by injection H as <-.
Qed.

Lemma _bezier_calculate_points_numerical f e :
  _bezier_calculate_points f = Raise e -> numerical e.
Proof.
  unfold _bezier_calculate_points. intros H.
  apply bind_Raise in H as [H | (M & _ & H)];
    [by eapply bernstein_matrix_numerical|].
  apply bind_Raise in H as [H | (Mi & _ & H)];
    [by eapply linalg_inv_numerical|].
  apply bind_Raise in H as [H | (d & _ & H)];
    [by eapply take_rows_numerical | by eapply dot_last_numerical].
Qed.

Lemma dstack_numerical x y e : dstack x y = Raise e -> numerical e.
Proof.
  unfold dstack. intros H.
  repeat match type of H with
         | (if ?b then _ else _) = _ => destruct b
         | match ?x with _ => _ end = _ => destruct x
         end; try discriminate; by injection H as <-.
Qed.

Lemma reshape_pairs_numerical {A} (a : ndarray A) e :
  reshape_pairs a = Raise e -> numerical e.
Proof.
  unfold reshape_pairs. destruct (Nat.even _); [discriminate|]. by intros [= <-].
Qed.

Lemma bezier_codes_high_degree (deg : nat) :
  4 <= deg -> bezier_codes deg = Raise KeyError.
Proof.
  intros H. do 4 (destruct deg as [|deg]; [lia|]). reflexivity.
Qed.

Lemma bezier_plot_body_high_degree (env : Env) (f : Function) :
  4 <= ufl_element_degree (field f) ->
  exists e, bezier_plot_body env f = Raise e /\ numerical e
    /\ (forall y x vals vertices,
          _bezier_calculate_points (field f) = Ok y ->
          _bezier_calculate_points
            (field (interpolate_DG env (mesh f) (ufl_element_degree (field f))
                      (ExprX0 (mesh f)))) = Ok x ->
          dstack x y = Ok vals ->
          reshape_pairs vals = Ok vertices ->
          e = KeyError).
Proof.
  intros Hdeg. unfold bezier_plot_body.
  destruct (_bezier_calculate_points (field f)) as [y|e] eqn:Hy.
  2:{ exists e. split; [reflexivity|].
      split; [by eapply _bezier_calculate_points_numerical | discriminate]. }
  rewrite bind_Ok_l.
  destruct (_bezier_calculate_points (field (interpolate_DG _ _ _ _)))
    as [x|e] eqn:Hx.
  2:{ exists e. split; [reflexivity|].
      split; [by eapply _bezier_calculate_points_numerical | discriminate]. }
  rewrite bind_Ok_l.
  destruct (dstack x y) as [vals|e] eqn:Hvals.
  2:{ exists e. split; [reflexivity|]. split; [by eapply dstack_numerical|].
      intros y' x' vals' vertices' [= <-] [= <-]. congruence. }
  rewrite bind_Ok_l.
  destruct (reshape_pairs vals) as [vertices|e] eqn:Hvert.
  2:{ exists e. split; [reflexivity|]. split; [by eapply reshape_pairs_numerical|].
      intros y' x' vals' vertices' [= <-] [= <-] Hv. rewrite Hvals in Hv.
      injection Hv as <-. congruence. }
  rewrite bind_Ok_l, (bezier_codes_high_degree _ Hdeg).
  exists KeyError. split; [reflexivity|]. split; [exact I | reflexivity].
Qed.

(** C3, as the code has it. For every function whose element degree is 4
    or more, [bezier_plot] fails, and never with the unsupported-functionality
    error: without the plotting library it raises the missing-dependency
    error; with it, an error of a numerical step if one fails, and otherwise
    the [KeyError] of the lookup of the degree in the table of path codes. *)
Theorem bezier_plot_high_degree_fails (env : Env) (f : Function) :
  4 <= ufl_element_degree (field f) ->
  exists e, bezier_plot env f = Raise e
    /\ e <> unsupported_functionality
    /\ (matplotlib_importable env = false -> e = missing_dependency)
    /\ (matplotlib_importable env = true -> numerical e)
    /\ (matplotlib_importable env = true ->
        forall y x vals vertices,
          _bezier_calculate_points (field f) = Ok y ->
          _bezier_calculate_points
            (field (interpolate_DG env (mesh f) (ufl_element_degree (field f))
                      (ExprX0 (mesh f)))) = Ok x ->
          dstack x y = Ok vals ->
          reshape_pairs vals = Ok vertices ->
          e = KeyError).
Proof.
  intros Hdeg. unfold bezier_plot.
  destruct (matplotlib_importable env) eqn:Hmpl; simpl.
  - destruct (ufl_element_degree (field f) =? 0) eqn:H0;
      [apply Nat.eqb_eq in H0; lia|].
    destruct (bezier_plot_body_high_degree env f Hdeg) as (e & He & Hnum & Hkey).
    exists e. split; [exact He|].
    split; [by apply numerical_not_unsupported|].
    split; [discriminate|]. split; [done|]. intros _. exact Hkey.
  - exists missing_dependency. split; [reflexivity|].
    split; [exact missing_dependency_not_unsupported|].
    split; [reflexivity|]. split; discriminate.
Qed.

Lemma bezier_plot_high_degree_fails_witness :
  ufl_element_degree (field Examples.quartic) = 4
  /\ exists e, bezier_plot Examples.with_libraries Examples.quartic = Raise e
       /\ e <> unsupported_functionality.
Proof.
  split; [reflexivity|].
  destruct (bezier_plot_high_degree_fails Examples.with_libraries
              Examples.quartic (le_n 4)) as (e & He & Hne & _).
  exists e. split; [exact He | exact Hne].
Defined.

(** C3, as stated, fails: with the plotting library present, [bezier_plot]
    on a degree-4 function raises [KeyError]. *)
Lemma bezier_plot_degree_four_key_error :
  ufl_element_degree (field Examples.quartic) = 4
  /\ bezier_plot Examples.with_libraries Examples.quartic = Raise KeyError
  /\ KeyError <> unsupported_functionality.
Proof.
  split; [reflexivity|]. split; [by vm_compute | discriminate].
Qed.

(** ** The field evaluator *)

Lemma einsum_Ok (data elem r : ndarray float) :
  einsum_ijk_jl_ilk data elem = Ok r ->
  exists ni nj nk nj' nl,
    shape data = [ni; nj; nk] /\ shape elem = [nj'; nl]
    /\ (nj = nj' \/ nj = 1 \/ nj' = 1)
    /\ shape r = [ni; nl; nk] /\ length (flat r) = ni * nl * nk.
Proof.
  unfold einsum_ijk_jl_ilk. intros H.
  destruct (shape data) as [|ni [|nj [|nk [|]]]]; try discriminate.
  destruct (shape elem) as [|nj' [|nl [|]]]; try discriminate.
  destruct ((nj =? nj') || (nj =? 1) || (nj' =? 1)) eqn:Hj; [|discriminate].
  injection H as <-.
  exists ni, nj, nk, nj', nl. repeat split; simpl.
  - apply orb_true_iff in Hj as [Hj | Hj];
      [apply orb_true_iff in Hj as [Hj | Hj]|];
      apply Nat.eqb_eq in Hj; auto.
  - rewrite (length_flat_map_const _ _ (nl * nk)).
    + rewrite length_seq. lia.
    + intros i. rewrite (length_flat_map_const _ _ nk).
      * by rewrite length_seq.
      * intros l. by rewrite length_map, length_seq.
Qed.

Lemma take_rows_Ok {A} (a : ndarray A) (idx : ndarray nat) (d : ndarray A) :
  take_rows a idx = Ok d ->
  exists n rest, shape a = n :: rest /\ shape d = shape idx ++ rest
    /\ Forall (fun i => i < n) (flat idx).
Proof.
  unfold take_rows. intros H.
  destruct (shape a) as [|n rest]; [discriminate|].
  destruct (forallb _ _) eqn:Hall; [|discriminate].
  injection H as <-. exists n, rest. repeat split.
  apply Forall_forall. intros i Hi.
  rewrite forallb_forall in Hall. apply Nat.ltb_lt, Hall.
  by apply list_elem_of_In.
Qed.

(** C2. A scalar function (value shape [()]) and a one-component vector
    function (value shape [(1,)]) with the same element, cell-to-node map and
    coefficients are evaluated to identical outcomes for every point set,
    dimension and mask, and a returned array has shape (cell, point, 1): its
    second extent is the number of columns of the tabulated table and, for
    one-dimensional coefficient data without a mask, its first extent is the
    number of rows of the cell-to-node map, whose row length is the number of
    tabulated nodes unless one of the two is 1 and is broadcast. *)
Theorem calculate_values_scalar_vector (fs fv : Field) (points : ndarray float)
    (dimension : nat) (cell_mask : option (list bool)) :
  ufl_shape fs = [] ->
  ufl_shape fv = [1] ->
  fiat_element fs = fiat_element fv ->
  cell_node_list fs = cell_node_list fv ->
  dat_data_ro fs = dat_data_ro fv ->
  _calculate_values fs points dimension cell_mask
  = _calculate_values fv points dimension cell_mask
  /\ forall r, _calculate_values fs points dimension cell_mask = Ok r ->
       exists c p nodes tab key elem,
         shape r = [c; p; 1] /\ length (flat r) = c * p * 1
         /\ tabulate (fiat_element fs) 0 points = Ok tab
         /\ keys dimension = Ok key
         /\ dict_get tab key = Ok elem
         /\ shape elem = [nodes; p]
         /\ (cell_mask = None ->
             forall n, shape (dat_data_ro fs) = [n] ->
               exists m, shape (cell_node_list fs) = [c; m]
                         /\ (m = nodes \/ m = 1 \/ nodes = 1)).
Proof.
  intros Hs Hv He Hc Hd. split.
  - unfold _calculate_values. by rewrite Hs, Hv, He, Hc, Hd.
  - intros r H. unfold _calculate_values in H. rewrite Hs in H.
    apply bind_Ok in H as (tab & Htab & H).
    apply bind_Ok in H as (key & Hkey & H).
    apply bind_Ok in H as (elem & Helem & H).
    apply bind_Ok in H as (cnl & Hcnl & H).
    apply bind_Ok in H as (data & Hdata & H).
    cbn [vec_length_of Nat.eqb] in H. cbv zeta in H.
    apply einsum_Ok in H
      as (ni & nj & nk & nj' & nl & Hsd & Hse & Hj & Hsr & Hlen).
    apply take_rows_Ok in Hdata as (n & rest & Hsa & Hsh & _).
    unfold reshape_append1 in Hsd. simpl in Hsd. rewrite Hsh in Hsd.
    assert (Hnk : nk = 1).
    { assert (Hl : last ((shape cnl ++ rest) ++ [1]) = Some 1) by apply last_snoc.
      rewrite Hsd in Hl. simpl in Hl. by injection Hl. }
    subst nk.
    exists ni, nl, nj', tab, key, elem.
    split; [exact Hsr|]. split; [exact Hlen|].
    split; [exact Htab|]. split; [exact Hkey|]. split; [exact Helem|].
    split; [exact Hse|].
    intros -> n0 Hn0. injection Hcnl as <-.
    rewrite Hn0 in Hsa. injection Hsa as _ <-.
    rewrite app_nil_r in Hsd.
    change [ni; nj; 1] with ([ni; nj] ++ [1]) in Hsd.
    apply app_inv_tail in Hsd. exists nj. split; [exact Hsd | exact Hj].
Qed.

Lemma calculate_values_scalar_vector_witness :
  _calculate_values (field Examples.identity_scalar)
    (mk_ndarray [3; 1] [Q2Qc 0; Examples.q 1 2; Q2Qc 1]) 1 None
  = _calculate_values (field Examples.identity_vector)
      (mk_ndarray [3; 1] [Q2Qc 0; Examples.q 1 2; Q2Qc 1]) 1 None
  /\ exists r, _calculate_values (field Examples.identity_scalar)
                 (mk_ndarray [3; 1] [Q2Qc 0; Examples.q 1 2; Q2Qc 1]) 1 None
               = Ok r
       /\ shape r = [2; 3; 1].
Proof.
  split.
  - exact (proj1 (calculate_values_scalar_vector
                    (field Examples.identity_scalar)
                    (field Examples.identity_vector)
                    (mk_ndarray [3; 1] [Q2Qc 0; Examples.q 1 2; Q2Qc 1]) 1 None
                    eq_refl eq_refl eq_refl eq_refl eq_refl)).
  - eexists. split; [by vm_compute | reflexivity].
Defined.

(** ** One-dimensional point assembly *)

Lemma argsort_Permutation (x : list float) :
  argsort x ≡ₚ seq 0 (length x).
Proof. unfold argsort. apply merge_sort_Permutation. Qed.

Lemma argsort_in_range (x : list float) :
  Forall (fun i => i < length x) (argsort x).
Proof.
  apply Forall_forall. intros i Hi.
  rewrite argsort_Permutation in Hi. apply elem_of_seq in Hi. lia.
Qed.

Lemma take_index_in_range {A} (a : list A) (order : list nat) (d : A) :
  Forall (fun i => i < length a) order ->
  take_index a order = Ok (map (fun i => nth i a d) order).
Proof.
  induction 1 as [|i order Hi _ IH]; [reflexivity|].
  simpl. destruct (lookup_lt_is_Some_2 a i Hi) as [v Hv].
  rewrite Hv, IH, bind_Ok_l. by rewrite (nth_lookup_Some _ _ _ _ Hv).
Qed.

Lemma combine_as_map {A B} (l : list A) (l' : list B) (da : A) (db : B) :
  length l <= length l' ->
  combine l l' = map (fun i => (nth i l da, nth i l' db)) (seq 0 (length l)).
Proof.
  revert l'. induction l as [|a l IH]; intros [|b l'] H; simpl in *;
    try lia; [reflexivity | reflexivity |].
  f_equal. rewrite <- seq_shift, map_map. apply IH. lia.
Qed.

Lemma combine_map_same {A B C} (f : C -> A) (g : C -> B) (o : list C) :
  combine (map f o) (map g o) = map (fun i => (f i, g i)) o.
Proof. induction o as [|i o IH]; [reflexivity|]. simpl. by rewrite IH. Qed.

(** C5. When the evaluator returns coordinates [x] and values [y] (at least
    as many values as coordinates), one-dimensional point assembly returns
    rows [xs], [ys] such that [xs] is non-decreasing and both rows are the
    flattened [x] and [y] read through one and the same permutation of the
    indices, so the (x, y) columns are a permutation of the evaluator's
    flattened (coordinate, value) pairs. *)
Theorem calculate_one_dim_points_sorted (function : Function) (num_points : Z)
    (cell_mask : option (list bool)) (x y : ndarray float) :
  _calculate_points function num_points 1 cell_mask = Ok (x, y) ->
  length (flat x) <= length (flat y) ->
  exists xs ys order,
    calculate_one_dim_points function num_points cell_mask = Ok (xs, ys)
    /\ StronglySorted Qcle xs
    /\ order ≡ₚ seq 0 (length (flat x))
    /\ xs = map (fun i => nth i (flat x) (Q2Qc 0)) order
    /\ ys = map (fun i => nth i (flat y) (Q2Qc 0)) order
    /\ combine xs ys ≡ₚ combine (flat x) (flat y).
Proof.
  intros Hxy Hlen.
  set (order := argsort (flat x)).
  exists (map (fun i => nth i (flat x) (Q2Qc 0)) order),
         (map (fun i => nth i (flat y) (Q2Qc 0)) order), order.
  split; [|split; [|split; [|split; [|split]]]]; try reflexivity.
  - unfold calculate_one_dim_points. rewrite Hxy, bind_Ok_l. cbv zeta.
    unfold ravel. cbn [fst snd]. fold order.
    rewrite (take_index_in_range (flat x) order (Q2Qc 0))
      by apply argsort_in_range.
    rewrite bind_Ok_l.
    rewrite (take_index_in_range (flat y) order (Q2Qc 0)).
    + reflexivity.
    + eapply Forall_impl; [apply argsort_in_range|]. simpl. lia.
  - apply (StronglySorted_fmap _ (key_le (flat x))); [by unfold key_le|].
    apply StronglySorted_merge_sort; apply _.
  - apply argsort_Permutation.
  - rewrite combine_map_same.
    rewrite (combine_as_map (flat x) (flat y) (Q2Qc 0) (Q2Qc 0) Hlen).
    apply Permutation_map, argsort_Permutation.
Qed.

Lemma calculate_one_dim_points_sorted_witness :
  exists xs ys,
    calculate_one_dim_points Examples.identity_scalar 3 None = Ok (xs, ys)
    /\ StronglySorted Qcle xs
    /\ length xs = 6.
Proof.
  edestruct (calculate_one_dim_points_sorted Examples.identity_scalar 3 None)
    as (xs & ys & order & Hret & Hsorted & Hperm & Hxs & _).
  - vm_compute. reflexivity.
  - simpl. lia.
  - exists xs, ys. split; [exact Hret|]. split; [exact Hsorted|].
    rewrite Hxs, length_map, Hperm. reflexivity.
Defined.

(** ** The triangulation builder *)

Lemma length_pairs_of {A} (fuel : nat) (l : list A) :
  length l <= fuel -> length (pairs_of fuel l) = length l / 2.
Proof.
  revert l. induction fuel as [|fuel IH]; intros l Hlen.
  - destruct l; [reflexivity | simpl in Hlen; lia].
  - destruct l as [|a [|b l]]; [reflexivity | reflexivity |].
    cbn [pairs_of length]. rewrite IH by (simpl in Hlen; lia).
    change (S (S (length l))) with (1 * 2 + length l).
    rewrite Nat.div_add_l by lia. lia.
Qed.

Lemma foldr_max_ge (v : nat) (vs : list nat) (x : nat) :
  x ∈ v :: vs -> x <= foldr Nat.max v vs.
Proof.
  induction vs as [|w vs IH]; intros Hx.
  - apply list_elem_of_singleton in Hx as ->. simpl. lia.
  - simpl. apply elem_of_cons in Hx as [-> | Hx].
    + assert (v <= foldr Nat.max v vs) by (apply IH; left). lia.
    + apply elem_of_cons in Hx as [-> | Hx]; [lia|].
      assert (x <= foldr Nat.max v vs) by (apply IH; by right). lia.
Qed.

Lemma array_max_bound (t : list (list nat)) (top : nat) :
  array_max t = Ok top ->
  forall t0 v, t0 ∈ t -> v ∈ t0 -> v <= top.
Proof.
  unfold array_max. intros H t0 v Ht0 Hv.
  assert (Hin : v ∈ concat t).
  { apply list_elem_of_In, in_concat. exists t0.
    split; by apply list_elem_of_In. }
  destruct (concat t) as [|w ws]; [discriminate|].
  injection H as <-. by apply foldr_max_ge.
Qed.

Lemma foldr_max_in (v : nat) (vs : list nat) :
  foldr Nat.max v vs ∈ v :: vs.
Proof.
  induction vs as [|w vs IH]; [left|].
  simpl. destruct (Nat.max_spec w (foldr Nat.max v vs)) as [[_ ->] | [_ ->]].
  - apply elem_of_cons in IH as [-> | IH]; [left | right; by right].
  - right; left.
Qed.

Lemma array_max_attained (t : list (list nat)) (top : nat) :
  array_max t = Ok top -> exists t0, t0 ∈ t /\ top ∈ t0.
Proof.
  unfold array_max. intros H.
  destruct (concat t) as [|w ws] eqn:Hc; [discriminate|].
  injection H as <-.
  pose proof (foldr_max_in w ws) as Hin. rewrite <- Hc in Hin.
  apply list_elem_of_In, in_concat in Hin as (t0 & Ht0 & Hin).
  exists t0. split; by apply list_elem_of_In.
Qed.

Lemma mk_Triangulation_Ok x y t T :
  mk_Triangulation x y t = Ok T ->
  tri_x T = x /\ tri_y T = y /\ tri_triangles T = t
  /\ (forall tr v, tr ∈ t -> v ∈ tr -> v < length x).
Proof.
  unfold mk_Triangulation. destruct (_ && _) eqn:Hok; [|discriminate].
  intros [= <-]. repeat split.
  intros tr v Htr Hv.
  apply andb_true_iff in Hok as [_ Hall].
  rewrite forallb_forall in Hall.
  apply list_elem_of_In, Hall, andb_true_iff in Htr as [_ Htr].
  rewrite forallb_forall in Htr.
  by apply Nat.ltb_lt, Htr, list_elem_of_In.
Qed.

Lemma calculate_values_vector_shape (coords : Field) (pts r : ndarray float)
    (npts nn c m : nat) :
  tabulates_pointwise (fiat_element coords) 2 ->
  ufl_shape coords = [2] ->
  shape (dat_data_ro coords) = [nn; 2] ->
  shape (cell_node_list coords) = [c; m] ->
  shape pts = [npts; 2] ->
  wf_ndarray pts ->
  _calculate_values coords pts 2 None = Ok r ->
  shape r = [c; npts; 2] /\ length (flat r) = c * npts * 2.
Proof.
  intros Htab Hsh Hdat Hcnl Hpts Hwf H. unfold _calculate_values in H.
  apply bind_Ok in H as (tab & Ht & H).
  apply bind_Ok in H as (key & Hkey & H).
  apply bind_Ok in H as (elem & Helem & H).
  apply bind_Ok in H as (cnl & [= <-] & H).
  apply bind_Ok in H as (data & Hdata & H).
  rewrite Hsh in H. cbn [vec_length_of Nat.eqb] in H. cbv zeta in H.
  apply einsum_Ok in H
    as (ni & nj & nk & nj' & nl & Hsd & Hse & _ & Hsr & Hlen).
  apply take_rows_Ok in Hdata as (n & rest & Hsa & Hs & _).
  rewrite Hdat in Hsa. injection Hsa as <- <-.
  rewrite Hcnl, Hsd in Hs. injection Hs as -> -> ->.
  destruct (Htab 0 pts tab key elem npts Hpts Hwf Ht Helem) as [nodes Hnodes].
  rewrite Hse in Hnodes. injection Hnodes as _ ->.
  by rewrite Hsr, Hlen.
Qed.

Lemma points_of_pairs_wf (l : list (float * float)) :
  shape (points_of_pairs l) = [length l; 2] /\ wf_ndarray (points_of_pairs l).
Proof.
  split; [reflexivity|]. unfold wf_ndarray, points_of_pairs. simpl.
  rewrite (length_flat_map_const _ _ 2) by reflexivity. lia.
Qed.

(** C4. On a mesh of triangles or quadrilaterals, for every sample-point
    count, the triangulation the builder returns stitches one copy of the
    refined reference triangles per mesh cell, the copy of cell [c] having its
    vertex indices offset by [c * num_verts], where [num_verts] is the
    largest local index plus one; the global vertex arrays have (refined
    reference vertex count) x (number of mesh cells) entries; the indices of
    cell [c] lie in [[c * num_verts, (c + 1) * num_verts)], so no index is
    shared between the triangles of two different cells.  [num_verts] never
    exceeds the refined vertex count, and is that count when every refined
    vertex belongs to a triangle, as in a uniform refinement. *)
Theorem two_dimension_triangle_Z_stitching (env : Env) (f : Function) (n : Z)
    (base : list float * list float) (depth nn m m' : nat)
    (T : Triangulation) (zs : list float) :
  base_triangulation (ufl_cell (mesh f)) = Ok base ->
  subdivision_depth n = Ok depth ->
  tabulates_pointwise (fiat_element (coordinates (mesh f))) 2 ->
  ufl_shape (coordinates (mesh f)) = [2] ->
  shape (dat_data_ro (coordinates (mesh f))) = [nn; 2] ->
  shape (cell_node_list (coordinates (mesh f))) = [num_cells (mesh f); m'] ->
  shape (cell_node_list (field f)) = [num_cells (mesh f); m] ->
  two_dimension_triangle_Z env f n = Ok (T, zs) ->
  let tri := refine_triangulation env base.1 base.2 depth in
  exists top,
    let num_verts := top + 1 in
    let cell_triangles c :=
      map (map (fun v => v + c * num_verts)) (ref_triangles tri) in
    array_max (ref_triangles tri) = Ok top
    /\ tri_triangles T = flat_map cell_triangles (seq 0 (num_cells (mesh f)))
    /\ length (tri_x T) = length (ref_vertices tri) * num_cells (mesh f)
    /\ length (tri_y T) = length (ref_vertices tri) * num_cells (mesh f)
    /\ (forall c t v, t ∈ cell_triangles c -> v ∈ t ->
          c * num_verts <= v < (c + 1) * num_verts)
    /\ (forall c1 c2 t1 t2 v, c1 <> c2 ->
          t1 ∈ cell_triangles c1 -> t2 ∈ cell_triangles c2 ->
          v ∈ t1 -> v ∉ t2)
    /\ (0 < num_cells (mesh f) -> num_verts <= length (ref_vertices tri)).
Proof.
  intros Hbase Hdepth Htab Hsh Hdat Hcc Hcf H tri.
  unfold two_dimension_triangle_Z in H.
  destruct (negb (matplotlib_importable env)); [discriminate|].
  rewrite Hbase, bind_Ok_l, Hdepth, bind_Ok_l in H. cbv zeta in H. fold tri in H.
  apply bind_Ok in H as (top & Htop & H).
  apply bind_Ok in H as (nc & Hnc & H).
  unfold shape0 in Hnc. rewrite Hcf in Hnc. injection Hnc as <-.
  apply bind_Ok in H as (z_vals & _ & H).
  apply bind_Ok in H as (coords_vals & Hcv & H).
  apply bind_Ok in H as (xy & Hxy & H).
  apply bind_Ok in H as (triangulation & HT & H).
  injection H as <- _.
  destruct (points_of_pairs_wf (ref_vertices tri)) as [Hps Hpw].
  destruct (calculate_values_vector_shape _ _ _ _ _ _ _
              Htab Hsh Hdat Hcc Hps Hpw Hcv) as [_ Hlen].
  unfold reshape_pairs in Hxy.
  destruct (Nat.even (length (flat coords_vals))); [|discriminate].
  injection Hxy as <-.
  apply mk_Triangulation_Ok in HT as (HX & HY & Htri & Hvalid).
  assert (Hpairs : length (pairs_of (length (flat coords_vals))
                                    (flat coords_vals))
                   = length (ref_vertices tri) * num_cells (mesh f)).
  { rewrite length_pairs_of by lia. rewrite Hlen, Nat.div_mul by lia. lia. }
  assert (Hrange : forall c t v,
             t ∈ map (map (fun v => v + c * (top + 1))) (ref_triangles tri) ->
             v ∈ t -> c * (top + 1) <= v < (c + 1) * (top + 1)).
  { intros c t v Ht Hv.
    apply list_elem_of_In, in_map_iff in Ht as (t0 & <- & Ht0).
    apply list_elem_of_In, in_map_iff in Hv as (v0 & <- & Hv0).
    apply list_elem_of_In in Ht0, Hv0.
    pose proof (array_max_bound _ _ Htop t0 v0 Ht0 Hv0). lia. }
  exists top. cbv zeta.
  split; [exact Htop|]. split; [exact Htri|].
  split; [by rewrite HX, length_map|]. split; [by rewrite HY, length_map|].
  split; [exact Hrange|]. split.
  - intros c1 c2 t1 t2 v Hne Ht1 Ht2 Hv1 Hv2.
    pose proof (Hrange c1 t1 v Ht1 Hv1) as [Hlo1 Hhi1].
    pose proof (Hrange c2 t2 v Ht2 Hv2) as [Hlo2 Hhi2].
    assert (Hc : c1 < c2 \/ c2 < c1) by lia.
    destruct Hc as [Hc | Hc]; nia.
  - intros Hcells.
    destruct (array_max_attained _ _ Htop) as (t0 & Ht0 & Hin).
    set (c := num_cells (mesh f) - 1).
    assert (Hv : top + c * (top + 1)
                 < length (ref_vertices tri) * num_cells (mesh f)).
    { rewrite <- Hpairs, <- (length_map fst).
      apply (Hvalid (map (fun v => v + c * (top + 1)) t0)).
      - apply list_elem_of_In, in_flat_map. exists c. split.
        + apply in_seq. lia.
        + apply in_map. by apply list_elem_of_In.
      - apply list_elem_of_In.
        apply (in_map (fun v => v + c * (top + 1))). by apply list_elem_of_In. }
    nia.
Qed.

Lemma p1_triangle_tabulates_pointwise :
  tabulates_pointwise Examples.p1_triangle 2.
Proof.
  intros order pts tab key elem npts Hshape Hwf Htab Hget.
  simpl in Htab. injection Htab as <-. simpl in Hget.
  destruct (decide ([order; order] = key)); [|discriminate].
  injection Hget as <-. exists 3. simpl. do 2 f_equal.
  rewrite length_pairs_of by lia.
  unfold wf_ndarray in Hwf. rewrite Hwf, Hshape.
  change (prod_shape [npts; 2]) with (npts * (2 * 1)).
  rewrite Nat.mul_1_r. apply Nat.div_mul. lia.
Qed.

Lemma two_dimension_triangle_Z_stitching_witness :
  exists T zs,
    two_dimension_triangle_Z Examples.with_libraries Examples.sum_xy 10
      = Ok (T, zs)
    /\ length (tri_x T) = 3 * 2
    /\ tri_triangles T = [[0; 1; 2]; [3; 4; 5]].
Proof.
  destruct (two_dimension_triangle_Z Examples.with_libraries Examples.sum_xy 10)
    as [[T zs]|e] eqn:Hret; [|vm_compute in Hret; discriminate].
  exists T, zs. split; [reflexivity|].
  destruct (two_dimension_triangle_Z_stitching Examples.with_libraries
              Examples.sum_xy 10
              ([Q2Qc 0; Q2Qc 0; Q2Qc 1], [Q2Qc 0; Q2Qc 1; Q2Qc 0]) 0 4 3 3 T zs
              eq_refl eq_refl p1_triangle_tabulates_pointwise
              eq_refl eq_refl eq_refl eq_refl Hret)
    as (top & Htop & Htri & HX & _).
  injection Htop as <-.
  split; [exact HX | exact Htri].
Defined.

(** * Further properties of the sampling grid *)

Lemma triu_count {A} (n : nat) (g : list (list A)) (s : nat) :
  Forall (fun row => length row = n) g ->
  s + length g = n ->
  2 * length (concat (imap (fun a row => drop (s + a) row) g))
  = length g * (length g + 1).
Proof.
  revert s. induction g as [|row g IH]; intros s Hrows Hs; [reflexivity|].
  apply Forall_cons in Hrows as [Hrow Hrows].
  rewrite imap_cons. cbn [concat length]. rewrite length_app, length_drop, Hrow.
  rewrite (imap_ext _ (fun a row => drop (S s + a) row)).
  - specialize (IH (S s) Hrows). simpl in Hs.
    rewrite Nat.mul_add_distr_l, IH by lia. lia.
  - intros i x _. simpl. f_equal. lia.
Qed.

Lemma seq_strictly_increasing (s n : nat) : StronglySorted lt (seq s n).
Proof.
  revert s. induction n as [|n IH]; intros s; [constructor|].
  simpl. constructor; [apply IH|].
  apply Forall_forall. intros j Hj. apply elem_of_seq in Hj. lia.
Qed.

Lemma grid_strictly_increasing (n : nat) :
  StronglySorted Qclt
    (map (fun i => (Qc_of_Z (Z.of_nat i) / Qc_of_Z (Z.of_nat n - 1))%Qc)
         (seq 0 n)).
Proof.
  destruct (decide (n <= 1)) as [Hsmall | Hbig].
  - destruct n as [|[|n]]; [constructor | repeat constructor | lia].
  - apply (StronglySorted_fmap _ lt).
    + intros i j Hij. unfold Qcdiv. apply Qcmult_lt_mono_pos_r.
      * apply Qcinv_pos, Qc_of_Z_pos. lia.
      * apply (proj1 (Z2Qc_inj_lt _ _)). lia.
    + apply seq_strictly_increasing.
Qed.

(** The triangle grid holds [n (n + 1) / 2] points: row [a] of the mirrored
    grid keeps [n - a] of its [n] columns. *)
Theorem triangle_points_count (n : nat) :
  exists l, sample_points triangle (Z.of_nat n) = Ok (points_of_pairs l)
    /\ 2 * length l = n * (n + 1)
    /\ shape (points_of_pairs l) = [length l; 2]
    /\ length (flat (points_of_pairs l)) = length l * 2.
Proof.
  eexists. unfold sample_points. rewrite linspace_nat. simpl.
  split; [reflexivity|].
  set (p := map _ (seq 0 n)).
  assert (Hp : length p = n) by (unfold p; rewrite length_map, length_seq; done).
  clearbody p. split; [|split; [reflexivity|]].
  - unfold triu_select.
    pose proof (triu_count n (meshgrid_T p (reverse p)) 0) as Hc.
    assert (Hlen : length (meshgrid_T p (reverse p)) = n)
      by (unfold meshgrid_T; by rewrite length_map).
    rewrite Hlen in Hc. apply Hc; [|reflexivity].
    apply Forall_forall. intros row Hrow.
    apply list_elem_of_In, in_map_iff in Hrow as (x & <- & _).
    by rewrite length_map, length_reverse.
  - by rewrite (length_flat_map_const _ _ 2).
Qed.

(** The interval grid is strictly increasing and stays in [0, 1]; it starts
    at 0 when it has a point and ends at 1 when it has two or more. *)
Theorem interval_points_increasing (n : nat) :
  exists pts, sample_points interval (Z.of_nat n) = Ok pts
    /\ StronglySorted Qclt (flat pts)
    /\ Forall (fun x => (Q2Qc 0 <= x)%Qc /\ (x <= Q2Qc 1)%Qc) (flat pts)
    /\ (1 <= n -> head (flat pts) = Some (Q2Qc 0))
    /\ (2 <= n -> last (flat pts) = Some (Q2Qc 1)).
Proof.
  eexists. unfold sample_points. rewrite linspace_nat.
  split; [reflexivity|]. cbn [flat].
  split; [apply grid_strictly_increasing|]. split; [|split].
  - apply Forall_forall. intros x Hx.
    apply list_elem_of_lookup in Hx as [i Hi].
    apply grid_lookup in Hi as [Hin ->].
    split; [by apply grid_point_nonneg|].
    pose proof (grid_points_sum n i 0 ltac:(lia) Hin) as Hsum.
    replace (Qc_of_Z (Z.of_nat 0) / Qc_of_Z (Z.of_nat n - 1))%Qc
      with (Q2Qc 0) in Hsum.
    + by rewrite Qcplus_0_r in Hsum.
    + unfold Qcdiv. change (Z.of_nat 0) with 0%Z. rewrite Z2Qc_inj_0. ring.
  - intros Hn. destruct n as [|n]; [lia|]. cbn [seq map head]. f_equal.
    unfold Qcdiv. change (Z.of_nat 0) with 0%Z. rewrite Z2Qc_inj_0. ring.
  - intros Hn. change (map ?f ?l) with (f <$> l). rewrite fmap_last.
    rewrite last_lookup, length_seq, lookup_seq_lt by lia. simpl. f_equal.
    replace (Z.of_nat (Nat.pred n)) with (Z.of_nat n - 1)%Z by lia.
    unfold Qcdiv. apply Qcmult_inv_r.
    intros Heq. assert (Hpos : (Q2Qc 0 < Qc_of_Z (Z.of_nat n - 1))%Qc)
      by (apply Qc_of_Z_pos; lia).
    rewrite Heq in Hpos. by apply Qclt_not_eq in Hpos.
Qed.

(** [_calculate_points] and [calculate_one_dim_points] refuse a cell shape
    other than interval, triangle and quadrilateral with the
    unsupported-functionality error, and a negative point count on a supported
    shape with [ValueError], in both cases before the function, its mesh
    coordinates or the mask are read. *)
Theorem calculate_points_refusals (function : Function) (num_points : Z)
    (dimension : nat) (cell_mask : option (list bool)) :
  (ufl_cell (mesh function) = tetrahedron
   \/ ufl_cell (mesh function) = hexahedron ->
   _calculate_points function num_points dimension cell_mask
     = Raise unsupported_functionality
   /\ calculate_one_dim_points function num_points cell_mask
     = Raise unsupported_functionality)
  /\ ((num_points < 0)%Z ->
      ufl_cell (mesh function) = interval
      \/ ufl_cell (mesh function) = triangle
      \/ ufl_cell (mesh function) = quadrilateral ->
      _calculate_points function num_points dimension cell_mask
        = Raise ValueError
      /\ calculate_one_dim_points function num_points cell_mask
        = Raise ValueError).
Proof.
  split.
  - intros Hcell.
    unfold calculate_one_dim_points, _calculate_points, sample_points.
    by destruct Hcell as [-> | ->].
  - intros Hneg Hcell.
    unfold calculate_one_dim_points, _calculate_points, sample_points, linspace.
    apply Z.ltb_lt in Hneg. rewrite Hneg.
    by destruct Hcell as [-> | [-> | ->]].
Qed.

(** * Further properties of the Bernstein basis *)

Lemma binomial_0_r (n : nat) : binomial n 0 = 1.
Proof. by destruct n. Qed.

Lemma binomial_above (n k : nat) : n < k -> binomial n k = 0.
Proof.
  revert k. induction n as [|n IH]; intros [|k] H; try lia; [reflexivity|].
  simpl. rewrite !IH by lia. reflexivity.
Qed.

Lemma binomial_fact (n k : nat) :
  k <= n -> binomial n k * fact k * fact (n - k) = fact n.
Proof.
  revert k. induction n as [|n IH]; intros [|k] Hk; try lia.
  - reflexivity.
  - simpl. lia.
  - destruct (decide (k = n)) as [-> | Hne].
    + specialize (IH n (le_n n)).
      cbn [binomial]. rewrite (binomial_above n (S n)) by lia.
      rewrite Nat.sub_diag in *. change (fact (S n)) with (S n * fact n).
      change (fact 0) with 1 in *. nia.
    + pose proof (IH k ltac:(lia)) as H1.
      pose proof (IH (S k) ltac:(lia)) as H2.
      cbn [binomial]. change (fact (S n)) with (S n * fact n).
      change (fact (S k)) with (S k * fact k) in *.
      replace (S n - S k) with (n - k) by lia.
      replace (n - k) with (S (n - S k)) in * by lia.
      change (fact (S (n - S k))) with (S (n - S k) * fact (n - S k)) in *.
      nia.
Qed.

Lemma binomial_diag (n : nat) : binomial n n = 1.
Proof.
  pose proof (binomial_fact n n (le_n n)) as H.
  rewrite Nat.sub_diag in H. change (fact 0) with 1 in H.
  pose proof (lt_O_fact n). nia.
Qed.

Lemma factorial_quotient (n k : nat) :
  k <= n ->
  (factorial n / factorial k / factorial (n - k))%Z = Z.of_nat (binomial n k).
Proof.
  intros Hk. unfold factorial. rewrite <- (binomial_fact n k Hk).
  pose proof (lt_O_fact k). pose proof (lt_O_fact (n - k)).
  rewrite !Nat2Z.inj_mul.
  replace (Z.of_nat (binomial n k) * Z.of_nat (fact k) * Z.of_nat (fact (n - k)))%Z
    with (Z.of_nat (binomial n k) * Z.of_nat (fact (n - k)) * Z.of_nat (fact k))%Z
    by ring.
  rewrite !Z.div_mul by lia. reflexivity.
Qed.

Lemma bernstein_value (x : float) (k n : nat) :
  _bernstein x k n
  = if n <? k then Raise ValueError
    else Ok (Qc_of_Z (Z.of_nat (binomial n k)) * x ^ k
             * (Q2Qc 1 - x) ^ (n - k))%Qc.
Proof.
  unfold _bernstein. destruct (n <? k) eqn:Hnk; [reflexivity|].
  apply Nat.ltb_ge in Hnk. by rewrite factorial_quotient.
Qed.

(** [_bernstein] raises [ValueError] exactly when [k > n]; otherwise the
    floor divisions of its factorials lose nothing and it returns
    [C(n, k) x^k (1 - x)^(n - k)] with the binomial coefficient [C(n, k)]. *)
Theorem bernstein_binomial (x : float) (k n : nat) :
  _bernstein x k n
  = if n <? k then Raise ValueError
    else Ok (Qc_of_Z (Z.of_nat (binomial n k)) * x ^ k
             * (Q2Qc 1 - x) ^ (n - k))%Qc.
Proof. apply bernstein_value. Qed.

Lemma foldr_plus_init (f : nat -> float) (c : float) (l : list nat) :
  foldr (fun j acc => (f j + acc)%Qc) c l
  = (foldr (fun j acc => (f j + acc)%Qc) (Q2Qc 0) l + c)%Qc.
Proof. induction l as [|j l IH]; simpl; [ring | rewrite IH; ring]. Qed.

Lemma fsum_S_r (f : nat -> float) (n : nat) :
  fsum f (S n) = (fsum f n + f n)%Qc.
Proof.
  unfold fsum. rewrite seq_S, foldr_app. simpl.
  rewrite foldr_plus_init. ring.
Qed.

Lemma fsum_S_l (f : nat -> float) (n : nat) :
  fsum f (S n) = (f O + fsum (fun i => f (S i)) n)%Qc.
Proof.
  unfold fsum. simpl. f_equal. rewrite <- seq_shift.
  generalize (seq 0 n). intros l.
  induction l as [|j l IH]; simpl; [reflexivity | by rewrite IH].
Qed.

Lemma fsum_ext (f g : nat -> float) (n : nat) :
  (forall i, i < n -> f i = g i) -> fsum f n = fsum g n.
Proof.
  induction n as [|n IH]; intros H; [reflexivity|].
  rewrite !fsum_S_r, IH, H by (intros; auto with lia). reflexivity.
Qed.

Lemma fsum_plus (f g : nat -> float) (n : nat) :
  fsum (fun i => (f i + g i)%Qc) n = (fsum f n + fsum g n)%Qc.
Proof.
  induction n as [|n IH]; [unfold fsum; simpl; ring|].
  rewrite !fsum_S_r, IH. ring.
Qed.

Lemma fsum_scale (c : float) (f : nat -> float) (n : nat) :
  fsum (fun i => (c * f i)%Qc) n = (c * fsum f n)%Qc.
Proof.
  induction n as [|n IH]; [unfold fsum; simpl; ring|].
  rewrite !fsum_S_r, IH. ring.
Qed.

Lemma Qc_of_nat_add (a b : nat) :
  Qc_of_Z (Z.of_nat (a + b))
  = (Qc_of_Z (Z.of_nat a) + Qc_of_Z (Z.of_nat b))%Qc.
Proof. by rewrite Nat2Z.inj_add, Z2Qc_inj_add. Qed.

Lemma Qc_of_nat_0 : Qc_of_Z (Z.of_nat 0) = Q2Qc 0.
Proof. exact Z2Qc_inj_0. Qed.

Lemma Qc_of_nat_1 : Qc_of_Z (Z.of_nat 1) = Q2Qc 1.
Proof. exact Z2Qc_inj_1. Qed.

Lemma binomial_theorem (a b : float) (n : nat) :
  fsum (fun k => (Qc_of_Z (Z.of_nat (binomial n k)) * a ^ k * b ^ (n - k))%Qc)
       (S n)
  = ((a + b) ^ n)%Qc.
Proof.
  induction n as [|n IH].
  - unfold fsum. simpl. rewrite Qc_of_nat_1. ring.
  - set (h := fun k => (Qc_of_Z (Z.of_nat (binomial n k)) * a ^ k
                        * b ^ (n - k))%Qc) in *.
    rewrite fsum_S_l.
    rewrite (fsum_ext _ (fun i => (a * h i
               + Qc_of_Z (Z.of_nat (binomial n (S i))) * a ^ S i
                 * b ^ (n - i))%Qc)).
    2:{ intros i _. unfold h. cbn [binomial]. rewrite Qc_of_nat_add.
        replace (S n - S i) with (n - i) by lia. simpl. ring. }
    rewrite fsum_plus, fsum_scale, IH, fsum_S_r.
    rewrite (binomial_above n (S n)) by lia.
    rewrite (fsum_ext _ (fun i => (b * h (S i))%Qc)).
    2:{ intros i Hi. unfold h.
        replace (n - i) with (S (n - S i)) by lia. simpl. ring. }
    rewrite fsum_scale.
    assert (Hh : fsum h (S n) = (h O + fsum (fun i => h (S i)) n)%Qc)
      by apply fsum_S_l.
    rewrite IH in Hh.
    cbn [binomial]. rewrite Qc_of_nat_1, Qc_of_nat_0.
    replace (S n - 0) with (S n) by lia.
    assert (Hh0 : h O = (b ^ n)%Qc).
    { unfold h. rewrite binomial_0_r, Qc_of_nat_1, Nat.sub_0_r. simpl. ring. }
    rewrite Hh0 in Hh.
    assert (Hrest : fsum (fun i => h (S i)) n = ((a + b) ^ n - b ^ n)%Qc)
      by (rewrite Hh; ring).
    rewrite Hrest. simpl. ring.
Qed.

(** Partition of unity: for every [x] and degree [n], the [n + 1] Bernstein
    values [_bernstein x k n], [k = 0 .. n], are all returned and sum to 1. *)
Theorem bernstein_partition_of_unity (x : float) (n : nat) :
  exists values,
    mapM (fun k => _bernstein x k n) (seq 0 (S n)) = Ok values
    /\ length values = S n
    /\ fsum (fun k => nth k values (Q2Qc 0)) (S n) = Q2Qc 1.
Proof.
  set (b := fun k => (Qc_of_Z (Z.of_nat (binomial n k)) * x ^ k
                      * (Q2Qc 1 - x) ^ (n - k))%Qc).
  assert (HmapM : forall l, Forall (fun k => k <= n) l ->
            mapM (fun k => _bernstein x k n) l = Ok (map b l)).
  { induction 1 as [|k l Hk _ IHl]; [reflexivity|].
    simpl. rewrite bernstein_value.
    destruct (n <? k) eqn:Hnk; [apply Nat.ltb_lt in Hnk; lia|].
    by rewrite bind_Ok_l, IHl. }
  exists (map b (seq 0 (S n))). split; [|split].
  - apply HmapM, Forall_forall. intros k Hk. apply elem_of_seq in Hk. lia.
  - by rewrite length_map, length_seq.
  - rewrite (fsum_ext _ b).
    + unfold b. rewrite binomial_theorem.
      replace (x + (Q2Qc 1 - x))%Qc with (Q2Qc 1) by ring.
      apply Qcpower_1.
    + intros i Hi.
      change (map b ?l) with (b <$> l).
      rewrite nth_lookup, list_lookup_fmap, lookup_seq_lt by lia. reflexivity.
Qed.

(** At the ends of the reference interval the Bernstein basis is a unit
    vector: at 0 only index 0 is 1, at 1 only index [n] is 1, the others are
    0; and on [0, 1] no Bernstein value is negative. *)
Theorem bernstein_endpoints_and_sign (x : float) (k n : nat) :
  k <= n ->
  _bernstein (Q2Qc 0) k n = Ok (if k =? 0 then Q2Qc 1 else Q2Qc 0)
  /\ _bernstein (Q2Qc 1) k n = Ok (if k =? n then Q2Qc 1 else Q2Qc 0)
  /\ ((Q2Qc 0 <= x)%Qc -> (x <= Q2Qc 1)%Qc ->
      exists v, _bernstein x k n = Ok v /\ (Q2Qc 0 <= v)%Qc).
Proof.
  intros Hk. rewrite !bernstein_value.
  destruct (n <? k) eqn:Hnk; [apply Nat.ltb_lt in Hnk; lia|].
  split; [|split].
  - f_equal. destruct k as [|k].
    + rewrite binomial_0_r, Qc_of_nat_1, Nat.sub_0_r. simpl.
      replace (Q2Qc 1 - Q2Qc 0)%Qc with (Q2Qc 1) by ring.
      rewrite Qcpower_1. ring.
    + cbn [Nat.eqb]. rewrite (Qcpower_0 (S k)) by lia. ring.
  - f_equal. destruct (k =? n) eqn:Hkn.
    + apply Nat.eqb_eq in Hkn as ->.
      rewrite binomial_diag, Nat.sub_diag, Qcpower_1. simpl.
      rewrite Qc_of_nat_1. ring.
    + apply Nat.eqb_neq in Hkn.
      replace (Q2Qc 1 - Q2Qc 1)%Qc with (Q2Qc 0) by ring.
      rewrite (Qcpower_0 (n - k)) by lia. ring.
  - intros H0 H1. eexists. split; [reflexivity|].
    apply Qcmult_nonneg_nonneg; [apply Qcmult_nonneg_nonneg|].
    + apply Qc_of_Z_nonneg. lia.
    + by apply Qcpower_pos.
    + apply Qcpower_pos.
      apply (proj2 (Qcplus_le_mono_r _ _ x)).
      by replace (Q2Qc 1 - x + x)%Qc with (Q2Qc 1) by ring; rewrite Qcplus_0_l.
Qed.

Lemma bernstein_endpoints_and_sign_witness :
  _bernstein (Q2Qc 0) 0 3 = Ok (Q2Qc 1)
  /\ _bernstein (Q2Qc 1) 2 3 = Ok (Q2Qc 0)
  /\ exists v, _bernstein (Examples.q 1 3) 2 3 = Ok v /\ (Q2Qc 0 <= v)%Qc.
Proof.
  pose proof (bernstein_endpoints_and_sign (Examples.q 1 3) 0 3 ltac:(lia))
    as (H0 & _ & _).
  pose proof (bernstein_endpoints_and_sign (Examples.q 1 3) 2 3 ltac:(lia))
    as (_ & H1 & Hpos).
  split; [exact H0|]. split; [exact H1|].
  apply Hpos; by vm_compute.
Defined.

(** * Further properties of the Bezier interpolation of samples *)

Lemma cubic_weights :
  mapM (fun k => _bernstein (Q2Qc 0) k 3) (seq 0 4)
    = Ok [Q2Qc 1; Q2Qc 0; Q2Qc 0; Q2Qc 0]
  /\ mapM (fun k => _bernstein (Q2Qc (1 # 3)) k 3) (seq 0 4)
    = Ok [Q2Qc (8 # 27); Q2Qc (4 # 9); Q2Qc (2 # 9); Q2Qc (1 # 27)]
  /\ mapM (fun k => _bernstein (Q2Qc (2 # 3)) k 3) (seq 0 4)
    = Ok [Q2Qc (1 # 27); Q2Qc (2 # 9); Q2Qc (4 # 9); Q2Qc (8 # 27)]
  /\ mapM (fun k => _bernstein (Q2Qc 1) k 3) (seq 0 4)
    = Ok [Q2Qc 0; Q2Qc 0; Q2Qc 0; Q2Qc 1].
Proof.
  repeat split; vm_compute; repeat f_equal; by apply Qc_is_canon.
Qed.

Ltac qc_ring :=
  apply Qc_is_canon; simpl; repeat rewrite Qred_correct; ring.

(** The control points [points_to_bezier_curve] returns for four samples
    [p0 .. p3] define the cubic Bezier curve that passes through the samples
    at the parameters 0, 1/3, 2/3 and 1; its end control points are [p0] and
    [p3] themselves. *)
Theorem points_to_bezier_curve_interpolates (p0 p1 p2 p3 : float * float) :
  let c := points_to_bezier_curve [p0; p1; p2; p3] in
  length c = 4
  /\ nth 0 c (Q2Qc 0, Q2Qc 0) = p0
  /\ nth 3 c (Q2Qc 0, Q2Qc 0) = p3
  /\ bezier_point c (Q2Qc 0) = Ok p0
  /\ bezier_point c (Q2Qc (1 # 3)) = Ok p1
  /\ bezier_point c (Q2Qc (2 # 3)) = Ok p2
  /\ bezier_point c (Q2Qc 1) = Ok p3.
Proof.
  destruct cubic_weights as (W0 & W1 & W2 & W3).
  destruct p0 as [x0 y0], p1 as [x1 y1], p2 as [x2 y2], p3 as [x3 y3].
  cbv zeta. split; [reflexivity|].
  split; [unfold points_to_bezier_curve, combo, fsum; simpl; f_equal; qc_ring|].
  split; [unfold points_to_bezier_curve, combo, fsum; simpl; f_equal; qc_ring|].
  unfold bezier_point. rewrite W0, W1, W2, W3, !bind_Ok_l.
  unfold points_to_bezier_curve, combo, fsum. simpl.
  repeat split; do 2 f_equal; qc_ring.
Qed.

Lemma mapM_Ok_map {A B} (f : A -> res B) (g : A -> B) (l : list A) :
  Forall (fun a => f a = Ok (g a)) l -> mapM f l = Ok (map g l).
Proof.
  induction 1 as [|a l Ha _ IH]; [reflexivity|].
  simpl. by rewrite Ha, bind_Ok_l, IH.
Qed.

Lemma length_tile {A} (codes : list A) (n : nat) :
  length (tile codes n) = n * length codes.
Proof.
  unfold tile. induction n as [|n IH]; [reflexivity|].
  simpl. rewrite length_app, IH. reflexivity.
Qed.

Lemma segment_index_in_range (n : nat) :
  Forall (Forall (fun i => i < n)) (segment_index (Z.of_nat n)).
Proof.
  apply Forall_forall. intros row Hrow.
  apply list_elem_of_lookup in Hrow as [s Hs].
  apply segment_index_lookup in Hs as [-> Hs].
  assert (Hb : 3 * s + 3 < n).
  { assert (Z.of_nat s < (Z.of_nat n - 1) / 3)%Z by lia.
    Z.to_euclidean_division_equations. lia. }
  repeat constructor; lia.
Qed.

Lemma interp_bezier_vertices (env : Env) (pts : list float * list float)
    (cells n : nat) :
  matplotlib_importable env = true ->
  0 < cells ->
  length pts.1 = cells * n ->
  length pts.2 = cells * n ->
  let segments := Z.to_nat ((Z.of_nat n - 1) / 3) in
  exists path,
    interp_bezier env pts cells = Ok [PathPatch path]
    /\ length (path_vertices path) = cells * (segments * 4)
    /\ path_codes path
       = tile [MOVETO; CURVE4; CURVE4; CURVE4] (cells * segments)
    /\ (n < 4 -> path_vertices path = [] /\ path_codes path = []).
Proof.
  intros Hmpl Hcells Hx Hy segments.
  unfold interp_bezier. rewrite Hmpl. cbn [negb].
  assert (Hlen : length (combine pts.1 pts.2) = cells * n)
    by (rewrite length_combine; lia).
  rewrite Hlen.
  destruct (cells =? 0) eqn:Hc0; [apply Nat.eqb_eq in Hc0; lia|].
  rewrite (Nat.mul_comm cells n), Nat.Div0.mod_mul, Nat.div_mul by lia.
  cbn [orb negb Nat.eqb]. cbv zeta.
  set (ptsT := combine pts.1 pts.2) in *.
  set (d := (Q2Qc 0, Q2Qc 0)).
  set (cell_vertices := fun i : nat =>
         concat (map points_to_bezier_curve
                   (map (fun row => map (fun j => nth j (take n (drop (i * n) ptsT)) d)
                                        row)
                        (segment_index (Z.of_nat n))))).
  rewrite (mapM_Ok_map _ cell_vertices).
  2:{ apply Forall_forall. intros i Hi. apply elem_of_seq in Hi.
      rewrite (mapM_Ok_map _ (fun row =>
                 map (fun j => nth j (take n (drop (i * n) ptsT)) d) row)).
      - reflexivity.
      - eapply Forall_impl; [apply segment_index_in_range|].
        intros row Hrow. apply take_index_in_range.
        eapply Forall_impl; [exact Hrow|]. simpl. intros j Hj.
        rewrite length_take, length_drop, Hlen. nia. }
  rewrite bind_Ok_l.
  assert (Hcell : forall i, length (cell_vertices i) = segments * 4).
  { intros i. unfold cell_vertices. rewrite (length_concat_const _ 4).
    - rewrite !length_map. unfold segment_index.
      by rewrite length_map, length_seq.
    - apply Forall_forall. intros l Hl.
      apply list_elem_of_In, in_map_iff in Hl as (seg & <- & _).
      reflexivity. }
  assert (Hverts : length (concat (map cell_vertices (seq 0 cells)))
                   = cells * (segments * 4)).
  { rewrite (length_concat_const _ (segments * 4)).
    - by rewrite length_map, length_seq.
    - apply Forall_forall. intros l Hl.
      apply list_elem_of_In, in_map_iff in Hl as (i & <- & _). apply Hcell. }
  assert (Hdiv : length (concat (map cell_vertices (seq 0 cells))) / 4
                 = cells * segments).
  { rewrite Hverts, Nat.mul_assoc. apply Nat.div_mul. lia. }
  unfold mk_Path. rewrite Hdiv, length_tile, Hverts.
  replace (cells * segments * length [MOVETO; CURVE4; CURVE4; CURVE4]
           =? cells * (segments * 4)) with true
    by (symmetry; apply Nat.eqb_eq; simpl; lia).
  rewrite bind_Ok_l. eexists. split; [reflexivity|]. cbn [path_vertices path_codes].
  split; [exact Hverts|]. split; [reflexivity|].
  intros Hn.
  assert (Hseg : segments = 0).
  { unfold segments. Z.to_euclidean_division_equations. lia. }
  rewrite Hseg, Nat.mul_0_r in *. split.
  - by apply length_zero_iff_nil.
  - reflexivity.
Qed.

(** With the plotting library, at least one cell and [n] sorted points per
    cell, [interp_bezier] always returns: a figure with one path of
    [(n - 1) / 3] cubic segments per cell, four vertices each, coded
    [MOVETO, CURVE4, CURVE4, CURVE4]; no index it forms is out of range.
    With fewer than four points per cell the path is empty. *)
Theorem interp_bezier_path (env : Env) (pts : list float * list float)
    (cells n : nat) :
  matplotlib_importable env = true ->
  0 < cells ->
  length pts.1 = cells * n ->
  length pts.2 = cells * n ->
  let segments := Z.to_nat ((Z.of_nat n - 1) / 3) in
  exists path,
    interp_bezier env pts cells = Ok [PathPatch path]
    /\ length (path_vertices path) = cells * (segments * 4)
    /\ path_codes path
       = tile [MOVETO; CURVE4; CURVE4; CURVE4] (cells * segments)
    /\ (n < 4 -> path_vertices path = [] /\ path_codes path = []).
Proof. apply interp_bezier_vertices. Qed.

Lemma interp_bezier_path_witness :
  exists path,
    interp_bezier Examples.with_libraries
      ([Q2Qc 0; Q2Qc 1; Q2Qc 0; Q2Qc 1; Q2Qc 0; Q2Qc 1; Q2Qc 0;
        Q2Qc 1; Q2Qc 0; Q2Qc 1; Q2Qc 0; Q2Qc 1; Q2Qc 0; Q2Qc 1],
       [Q2Qc 0; Q2Qc 1; Q2Qc 0; Q2Qc 1; Q2Qc 0; Q2Qc 1; Q2Qc 0;
        Q2Qc 1; Q2Qc 0; Q2Qc 1; Q2Qc 0; Q2Qc 1; Q2Qc 0; Q2Qc 1]) 2
    = Ok [PathPatch path]
    /\ length (path_vertices path) = 16.
Proof.
  destruct (interp_bezier_path Examples.with_libraries
              ([Q2Qc 0; Q2Qc 1; Q2Qc 0; Q2Qc 1; Q2Qc 0; Q2Qc 1; Q2Qc 0;
                Q2Qc 1; Q2Qc 0; Q2Qc 1; Q2Qc 0; Q2Qc 1; Q2Qc 0; Q2Qc 1],
               [Q2Qc 0; Q2Qc 1; Q2Qc 0; Q2Qc 1; Q2Qc 0; Q2Qc 1; Q2Qc 0;
                Q2Qc 1; Q2Qc 0; Q2Qc 1; Q2Qc 0; Q2Qc 1; Q2Qc 0; Q2Qc 1])
              2 7 eq_refl ltac:(lia) eq_refl eq_refl)
    as (path & Hret & Hlen & _).
  exists path. split; [exact Hret | exact Hlen].
Defined.

(** [interp_bezier] raises [ValueError] when there is no cell, or when the
    points do not divide evenly among the cells, also when the point arrays
    are empty. *)
Theorem interp_bezier_refusals (env : Env) (pts : list float * list float)
    (cells : nat) :
  matplotlib_importable env = true ->
  cells = 0 \/ length (combine pts.1 pts.2) mod cells <> 0 ->
  interp_bezier env pts cells = Raise ValueError.
Proof.
  intros Hmpl Hbad. unfold interp_bezier. rewrite Hmpl. cbn [negb].
  destruct Hbad as [-> | Hmod]; [reflexivity|].
  apply Nat.eqb_neq in Hmod. rewrite Hmod. cbn [negb].
  by rewrite orb_true_r.
Qed.

Lemma interp_bezier_refusals_witness :
  interp_bezier Examples.with_libraries ([], []) 0 = Raise ValueError
  /\ interp_bezier Examples.with_libraries
       ([Q2Qc 0; Q2Qc 1; Q2Qc 1], [Q2Qc 0; Q2Qc 1; Q2Qc 1]) 2
     = Raise ValueError.
Proof.
  split.
  - apply interp_bezier_refusals; [reflexivity | by left].
  - apply interp_bezier_refusals; [reflexivity | right; simpl; lia].
Defined.

(** * Further properties of the Bezier reconstructor *)

Lemma chunks_one {A} (fuel : nat) (l : list A) :
  length l <= fuel -> chunks fuel 1 l = map (fun a => [a]) l.
Proof.
  revert l. induction fuel as [|fuel IH]; intros [|a l] Hlen;
    try reflexivity; simpl in Hlen; [lia|].
  cbn [chunks take drop map]. f_equal. apply IH. lia.
Qed.

Lemma zip_singletons {A} (l1 l2 : list A) :
  zip_with app (map (fun a => [a]) l1) (map (fun a => [a]) l2)
  = map (fun p => [p.1; p.2]) (combine l1 l2).
Proof.
  revert l2. induction l1 as [|a l1 IH]; intros [|b l2]; try reflexivity.
  simpl. by rewrite IH.
Qed.

Lemma pairs_of_interleave {A} (fuel : nat) (ps : list (A * A)) :
  length ps <= fuel ->
  pairs_of fuel (concat (map (fun p => [p.1; p.2]) ps)) = ps.
Proof.
  revert ps. induction fuel as [|fuel IH]; intros [|[a b] ps] Hlen;
    try reflexivity; simpl in Hlen; [lia|].
  simpl. f_equal. apply IH. lia.
Qed.

Lemma dstack_reshape_pairs (x y : ndarray float) (c m : nat) :
  shape x = [c; m] -> shape y = [c; m] ->
  exists vals,
    dstack x y = Ok vals
    /\ shape vals = [c; m; 2]
    /\ reshape_pairs vals = Ok (combine (flat x) (flat y)).
Proof.
  intros Hx Hy. unfold dstack. rewrite Hx, Hy. cbn [atleast_3d].
  rewrite !Nat.eqb_refl. cbn [andb]. rewrite bool_decide_eq_true_2 by done.
  eexists. split; [reflexivity|]. split; [reflexivity|].
  unfold reshape_pairs. cbn [flat prod_shape foldr Nat.mul].
  rewrite !chunks_one by lia. rewrite zip_singletons.
  set (ps := combine (flat x) (flat y)).
  assert (Hlen : length (concat (map (fun p : Qc * Qc => [p.1; p.2]) ps))
                 = length ps * 2).
  { rewrite (length_concat_const _ 2); [by rewrite length_map|].
    apply Forall_forall. intros l Hl.
    by apply list_elem_of_In, in_map_iff in Hl as (p & <- & _). }
  rewrite Hlen.
  replace (Nat.even (length ps * 2)) with true
    by (symmetry; apply Nat.even_spec; exists (length ps); lia).
  f_equal. apply pairs_of_interleave. lia.
Qed.

Lemma bezier_plot_vertices (env : Env) (f : Function) (x y : ndarray float)
    (codes : list path_code) (c : nat) (rest : list nat) :
  matplotlib_importable env = true ->
  ufl_element_degree (field f) <> 0 ->
  bezier_codes (ufl_element_degree (field f)) = Ok codes ->
  _bezier_calculate_points (field f) = Ok y ->
  _bezier_calculate_points
    (field (interpolate_DG env (mesh f) (ufl_element_degree (field f))
              (ExprX0 (mesh f)))) = Ok x ->
  shape x = [c; ufl_element_degree (field f) + 1] ->
  shape y = [c; ufl_element_degree (field f) + 1] ->
  wf_ndarray x -> wf_ndarray y ->
  shape (cell_node_list (field f)) = c :: rest ->
  length codes = ufl_element_degree (field f) + 1
  /\ bezier_plot env f
     = Ok [PathPatch {| path_vertices := combine (flat x) (flat y);
                        path_codes := tile codes c |}].
Proof.
  intros Hmpl Hdeg Hcodes Hy Hx Hsx Hsy Hwx Hwy Hcnl.
  assert (Hlc : length codes = ufl_element_degree (field f) + 1).
  { destruct (ufl_element_degree (field f)) as [|[|[|[|d]]]];
      try discriminate; try congruence; by injection Hcodes as <-. }
  split; [exact Hlc|].
  unfold bezier_plot. rewrite Hmpl. cbn [negb].
  apply Nat.eqb_neq in Hdeg. rewrite Hdeg.
  unfold bezier_plot_body. rewrite Hy, bind_Ok_l. cbv zeta.
  rewrite Hx, bind_Ok_l.
  destruct (dstack_reshape_pairs x y c _ Hsx Hsy) as (vals & Hv & _ & Hp).
  rewrite Hv, bind_Ok_l, Hp, bind_Ok_l, Hcodes, bind_Ok_l.
  unfold shape0. rewrite Hcnl, bind_Ok_l.
  unfold mk_Path. rewrite length_tile, length_combine, Hlc.
  unfold wf_ndarray in Hwx, Hwy. rewrite Hwx, Hwy, Hsx, Hsy.
  cbn [prod_shape foldr]. rewrite Nat.min_id, Nat.mul_1_r, Nat.eqb_refl.
  reflexivity.
Qed.

(** For a function of degree 1, 2 or 3 whose control-point arrays [x] and
    [y] are computed with one row of [deg + 1] entries per cell, [bezier_plot]
    returns a figure with one path: its vertices pair each control-point
    abscissa with its ordinate, cell after cell, and its codes repeat, once
    per cell, a move followed by one line (degree 1), one quadratic (degree 2)
    or one cubic (degree 3) segment. *)
Theorem bezier_plot_path (env : Env) (f : Function) (x y : ndarray float)
    (codes : list path_code) (c : nat) (rest : list nat) :
  matplotlib_importable env = true ->
  ufl_element_degree (field f) <> 0 ->
  bezier_codes (ufl_element_degree (field f)) = Ok codes ->
  _bezier_calculate_points (field f) = Ok y ->
  _bezier_calculate_points
    (field (interpolate_DG env (mesh f) (ufl_element_degree (field f))
              (ExprX0 (mesh f)))) = Ok x ->
  shape x = [c; ufl_element_degree (field f) + 1] ->
  shape y = [c; ufl_element_degree (field f) + 1] ->
  wf_ndarray x -> wf_ndarray y ->
  shape (cell_node_list (field f)) = c :: rest ->
  length codes = ufl_element_degree (field f) + 1
  /\ bezier_plot env f
     = Ok [PathPatch {| path_vertices := combine (flat x) (flat y);
                        path_codes := tile codes c |}].
Proof. apply bezier_plot_vertices. Qed.

Lemma bezier_plot_path_witness :
  exists path,
    bezier_plot Examples.with_libraries Examples.identity_scalar
      = Ok [PathPatch path]
    /\ path_codes path = [MOVETO; LINETO; MOVETO; LINETO]
    /\ length (path_vertices path) = 4.
Proof.
  edestruct (bezier_plot_path Examples.with_libraries Examples.identity_scalar)
    as [_ Hret].
  - reflexivity.
  - discriminate.
  - reflexivity.
  - vm_compute. reflexivity.
  - vm_compute. reflexivity.
  - reflexivity.
  - reflexivity.
  - reflexivity.
  - reflexivity.
  - reflexivity.
  - eexists. split; [exact Hret|]. split; reflexivity.
Defined.

Lemma bezier_points_degree_one (f : Field) (nodal : ndarray float) :
  ufl_element_degree f = 1 ->
  dual_point (dual_basis (fiat_element f)) 0 = Ok (Q2Qc 0) ->
  dual_point (dual_basis (fiat_element f)) 1 = Ok (Q2Qc 1) ->
  take_rows (dat_data_ro f) (cell_node_list f) = Ok nodal ->
  wf_ndarray nodal ->
  last (shape nodal) = Some 2 ->
  _bezier_calculate_points f = Ok nodal.
Proof.
  intros Hdeg H0 H1 Hrows Hwf Hlast.
  unfold _bezier_calculate_points.
  rewrite Hdeg, (bernstein_matrix_degree_one _ H0 H1), bind_Ok_l.
  rewrite linalg_inv_identity2, bind_Ok_l, Hrows, bind_Ok_l.
  by apply dot_last_identity2.
Qed.

(** A degree-1 function on a mesh of [c] cells, its two nodes at the
    reference coordinates 0 and 1, is drawn as the polyline through its nodal
    points: the path's vertices pair the nodal abscissae (of the mesh
    coordinate interpolated onto the discontinuous degree-1 space) with the
    nodal values, and its codes are a move and a line per cell. *)
Theorem bezier_plot_degree_one_polyline (env : Env) (f : Function)
    (nodal_x nodal_y : ndarray float) (c : nat) :
  matplotlib_importable env = true ->
  ufl_element_degree (field f) = 1 ->
  dual_point (dual_basis (fiat_element (field f))) 0 = Ok (Q2Qc 0) ->
  dual_point (dual_basis (fiat_element (field f))) 1 = Ok (Q2Qc 1) ->
  dual_point (dual_basis (DG_fiat_element env (mesh f) 1)) 0 = Ok (Q2Qc 0) ->
  dual_point (dual_basis (DG_fiat_element env (mesh f) 1)) 1 = Ok (Q2Qc 1) ->
  take_rows (dat_data_ro (field f)) (cell_node_list (field f)) = Ok nodal_y ->
  take_rows (interpolate_data env (mesh f) 1 (ExprX0 (mesh f)))
            (DG_cell_node_list env (mesh f) 1) = Ok nodal_x ->
  shape (cell_node_list (field f)) = [c; 2] ->
  shape nodal_x = [c; 2] -> shape nodal_y = [c; 2] ->
  wf_ndarray nodal_x -> wf_ndarray nodal_y ->
  bezier_plot env f
  = Ok [PathPatch {| path_vertices := combine (flat nodal_x) (flat nodal_y);
                     path_codes := tile [MOVETO; LINETO] c |}].
Proof.
  intros Hmpl Hdeg Hf0 Hf1 Hd0 Hd1 Hy Hx Hcnl Hsx Hsy Hwx Hwy.
  refine (proj2 (bezier_plot_vertices env f nodal_x nodal_y [MOVETO; LINETO]
                   c [2] Hmpl _ _ _ _ _ _ Hwx Hwy Hcnl)).
  - rewrite Hdeg. discriminate.
  - by rewrite Hdeg.
  - apply bezier_points_degree_one; try done. by rewrite Hsy.
  - rewrite Hdeg. apply bezier_points_degree_one; try done. by rewrite Hsx.
  - by rewrite Hdeg.
  - by rewrite Hdeg.
Qed.

Lemma bezier_plot_degree_one_polyline_witness :
  exists vertices,
    bezier_plot Examples.with_libraries Examples.identity_scalar
    = Ok [PathPatch {| path_vertices := vertices;
                       path_codes := [MOVETO; LINETO; MOVETO; LINETO] |}]
    /\ length vertices = 4.
Proof.
  eexists. split.
  - eapply (bezier_plot_degree_one_polyline Examples.with_libraries
              Examples.identity_scalar _ _ 2);
      try reflexivity; vm_compute; reflexivity.
  - reflexivity.
Defined.

(** * Further properties of the renderers *)

(** Without the plotting library every renderer that draws raises the
    missing-dependency error, whatever it is given: [plot] on a function or
    on any sequence (also the empty one), [_plot_mult], [bezier_plot],
    [interp_bezier], the triangulation builder and the two 2D renderers.  The
    notebook renderer tests for the widget library only, and without it raises
    the not-a-notebook error whether or not the plotting library is there. *)
Theorem renderers_without_libraries (env : Env) (n : Z) (kw : kwargs) :
  (matplotlib_importable env = false ->
   (forall arg, plot env arg n kw = Raise missing_dependency)
   /\ (forall functions, _plot_mult env functions n kw = Raise missing_dependency)
   /\ (forall f, bezier_plot env f = Raise missing_dependency)
   /\ (forall pts cells, interp_bezier env pts cells = Raise missing_dependency)
   /\ (forall f, two_dimension_triangle_Z env f n = Raise missing_dependency)
   /\ (forall f, two_dimension_surface env f n = Raise missing_dependency)
   /\ (forall f, two_dimension_contour env f n = Raise missing_dependency))
  /\ (ipywidgets_importable env = false ->
      forall functions,
        interactive_multiple_plot env functions n kw = Raise not_a_notebook).
Proof.
  split.
  - intros Hmpl. repeat split.
    + intros [f | functions]; simpl.
      * unfold plot_function. by rewrite Hmpl.
      * unfold _plot_mult_with. by rewrite Hmpl.
    + intros functions. unfold _plot_mult, _plot_mult_with. by rewrite Hmpl.
    + intros f. unfold bezier_plot. by rewrite Hmpl.
    + intros pts cells. unfold interp_bezier. by rewrite Hmpl.
    + intros f. unfold two_dimension_triangle_Z. by rewrite Hmpl.
    + intros f. unfold two_dimension_surface. by rewrite Hmpl.
    + intros f. unfold two_dimension_contour. by rewrite Hmpl.
  - intros Hipy functions. unfold interactive_multiple_plot. by rewrite Hipy.
Qed.

(** For a one-dimensional function of degree below 4, [plot] is
    [bezier_plot]: the requested number of sample points and the [bezier] and
    [contour] options have no effect on the outcome. *)
Theorem plot_low_degree_ignores_sampling (env : Env) (f : Function)
    (n n' : Z) (kw kw' : kwargs) :
  geometric_dimension (mesh f) = 1 ->
  topological_dimension (mesh f) = 1 ->
  ufl_element_degree (field f) < 4 ->
  plot env (PFunction f) n kw = (fig ← bezier_plot env f; Ok (Some fig))
  /\ plot env (PFunction f) n kw = plot env (PFunction f) n' kw'.
Proof.
  intros Hg Ht Hdeg.
  assert (H : forall m k, plot env (PFunction f) m k
                          = (fig ← bezier_plot env f; Ok (Some fig))).
  { intros m k. simpl. unfold plot_function, bezier_plot. rewrite Hg, Ht.
    destruct (matplotlib_importable env); [|reflexivity]. cbn [negb andb Nat.eqb].
    apply Nat.ltb_lt in Hdeg. by rewrite Hdeg. }
  split; [apply H | by rewrite !H].
Qed.

Lemma plot_low_degree_ignores_sampling_witness :
  plot Examples.with_libraries (PFunction Examples.identity_scalar) 100
       Examples.no_kwargs
  = plot Examples.with_libraries (PFunction Examples.identity_scalar) (-5)
         Examples.bezier_kwargs.
Proof.
  exact (proj2 (plot_low_degree_ignores_sampling Examples.with_libraries
                  Examples.identity_scalar 100 (-5) Examples.no_kwargs
                  Examples.bezier_kwargs eq_refl eq_refl ltac:(simpl; lia))).
Defined.



(** On a two-dimensional mesh of triangles or quadrilaterals, a sample count
    that is not positive makes [plot] raise [ValueError], for the surface and
    for the contour rendering alike: the subdivision depth is the logarithm of
    the count. *)
Theorem plot_two_dimension_nonpositive_count (env : Env) (f : Function)
    (n : Z) (kw : kwargs) :
  matplotlib_importable env = true ->
  geometric_dimension (mesh f) = 2 ->
  topological_dimension (mesh f) = 2 ->
  ufl_cell (mesh f) = triangle \/ ufl_cell (mesh f) = quadrilateral ->
  (n <= 0)%Z ->
  two_dimension_triangle_Z env f n = Raise ValueError
  /\ plot env (PFunction f) n kw = Raise ValueError.
Proof.
  intros Hmpl Hg Ht Hcell Hn.
  assert (Htz : two_dimension_triangle_Z env f n = Raise ValueError).
  { unfold two_dimension_triangle_Z, subdivision_depth. rewrite Hmpl.
    apply Z.leb_le in Hn. rewrite Hn. by destruct Hcell as [-> | ->]. }
  split; [exact Htz|].
  simpl. unfold plot_function, two_dimension_contour, two_dimension_surface.
  rewrite Hmpl, Hg, Ht, Htz. by destruct (kw_contour kw).
Qed.

Lemma plot_two_dimension_nonpositive_count_witness :
  plot Examples.with_libraries (PFunction Examples.sum_xy) 0
       Examples.no_kwargs
  = Raise ValueError.
Proof.
  exact (proj2 (plot_two_dimension_nonpositive_count Examples.with_libraries
                  Examples.sum_xy 0 Examples.no_kwargs eq_refl eq_refl eq_refl
                  (or_introl eq_refl) ltac:(lia))).
Defined.

(** * Further properties of the field evaluator *)

Lemma kept_count {A} (mask : list bool) (rows : list A) :
  length mask = length rows ->
  length (map snd (filter (fun br : bool * A => negb br.1) (combine mask rows)))
  = length (filter (fun b : bool => negb b) mask).
Proof.
  revert rows. induction mask as [|b mask IH]; intros [|r rows] Hlen;
    try discriminate; [reflexivity|].
  injection Hlen as Hlen. specialize (IH rows Hlen).
  cbn [combine]. destruct b.
  - rewrite (filter_cons_False _ (true, r)) by (simpl; tauto).
    rewrite (filter_cons_False _ true) by (simpl; tauto).
    exact IH.
  - rewrite (filter_cons_True _ (false, r)) by done.
    rewrite (filter_cons_True _ false) by done.
    cbn [map length]. by rewrite IH.
Qed.

Lemma filter_unmasked_all (mask : list bool) :
  forallb negb mask = true ->
  length (filter (fun b : bool => negb b) mask) = length mask.
Proof.
  induction mask as [|b mask IH]; [reflexivity|].
  cbn [forallb]. intros H. apply andb_true_iff in H as [Hb H].
  rewrite filter_cons_True by (by apply Is_true_true).
  cbn [length]. by rewrite IH.
Qed.

Lemma compress_masked_all_false (cnl : ndarray nat) (c m : nat) :
  shape cnl = [c; m] -> wf_ndarray cnl ->
  compress_masked cnl (replicate c false) = Ok cnl.
Proof.
  intros Hshape _. unfold compress_masked. rewrite Hshape.
  rewrite length_replicate, Nat.eqb_refl, bind_Ok_l.
  replace (forallb negb (replicate c false)) with true.
  - by rewrite orb_true_r.
  - symmetry. apply forallb_forall. intros b Hb.
    apply list_elem_of_In, elem_of_replicate in Hb as [-> _]. reflexivity.
Qed.

(** A mask that masks no cell changes nothing: the evaluator's outcome is
    the one without a mask. *)
Theorem calculate_values_empty_mask (f : Field) (points : ndarray float)
    (dimension c m : nat) :
  shape (cell_node_list f) = [c; m] ->
  wf_ndarray (cell_node_list f) ->
  _calculate_values f points dimension (Some (replicate c false))
  = _calculate_values f points dimension None.
Proof.
  intros Hshape Hwf. unfold _calculate_values.
  by rewrite (compress_masked_all_false _ c m Hshape Hwf).
Qed.

Lemma calculate_values_empty_mask_witness :
  _calculate_values (field Examples.identity_scalar)
    (mk_ndarray [1; 1] [Examples.q 1 2]) 1 (Some [false; false])
  = _calculate_values (field Examples.identity_scalar)
      (mk_ndarray [1; 1] [Examples.q 1 2]) 1 None.
Proof.
  exact (calculate_values_empty_mask (field Examples.identity_scalar)
           (mk_ndarray [1; 1] [Examples.q 1 2]) 1 2 2 eq_refl eq_refl).
Defined.

Lemma compress_masked_rows (cnl kept : ndarray nat) (c m : nat)
    (cell_mask : list bool) :
  shape cnl = [c; m] -> 0 < m -> length cell_mask = c ->
  compress_masked cnl cell_mask = Ok kept ->
  exists rest,
    shape kept = length (filter (fun b : bool => negb b) cell_mask) :: rest.
Proof.
  intros Hshape Hm Hlen H. unfold compress_masked in H. rewrite Hshape in H.
  apply Nat.eqb_eq in Hlen as Hlenb. rewrite Hlenb, bind_Ok_l in H.
  replace (m =? 0) with false in H by (symmetry; apply Nat.eqb_neq; lia).
  cbn [orb] in H.
  destruct (forallb negb cell_mask) eqn:Hnone.
  - injection H as <-. exists [m].
    by rewrite Hshape, filter_unmasked_all, Hlen.
  - destruct (forallb id cell_mask); [discriminate|]. injection H as <-.
    exists [m]. cbn [shape]. f_equal. apply kept_count.
    by rewrite length_map, length_seq.
Qed.

(** With a cell mask of one entry per cell, an array the evaluator returns
    has one row per unmasked cell, and when every cell is masked the call
    fails.  A mask of another length is refused with [MaskError], except the
    single-entry mask on a map with one node per cell, which is resized to
    every cell. *)
Theorem calculate_values_masked_cells (f : Field) (points : ndarray float)
    (dimension c m : nat) (cell_mask : list bool) :
  shape (cell_node_list f) = [c; m] ->
  0 < m ->
  (length cell_mask = c ->
   forall r, _calculate_values f points dimension (Some cell_mask) = Ok r ->
     exists p k,
       shape r = [length (filter (fun b : bool => negb b) cell_mask); p; k])
  /\ (forall tab key elem,
        tabulate (fiat_element f) 0 points = Ok tab ->
        keys dimension = Ok key ->
        dict_get tab key = Ok elem ->
        (length cell_mask = c -> 0 < c -> forallb id cell_mask = true ->
         exists e,
           _calculate_values f points dimension (Some cell_mask) = Raise e)
        /\ (length cell_mask <> c -> length cell_mask * m <> 1 ->
            _calculate_values f points dimension (Some cell_mask)
            = Raise MaskError))
  /\ (m = 1 -> forall b,
        _calculate_values f points dimension (Some [b])
        = _calculate_values f points dimension (Some (replicate c b))).
Proof.
  intros Hshape Hm. split; [|split].
  - intros Hlen r H. unfold _calculate_values in H.
    apply bind_Ok in H as (tab & _ & H).
    apply bind_Ok in H as (key & _ & H).
    apply bind_Ok in H as (elem & _ & H).
    apply bind_Ok in H as (cnl & Hcnl & H).
    apply bind_Ok in H as (data & Hdata & H).
    destruct (compress_masked_rows _ _ _ _ _ Hshape Hm Hlen Hcnl)
      as [rest Hkept].
    apply take_rows_Ok in Hdata as (n & rest' & _ & Hsd & _).
    rewrite Hkept in Hsd. cbv zeta in H.
    destruct (vec_length_of (ufl_shape f) =? 1);
      apply einsum_Ok in H
        as (ni & nj & nk & nj' & nl & Hs & _ & _ & Hsr & _);
      [unfold reshape_append1 in Hs; cbn [shape] in Hs|];
      rewrite Hsd in Hs; injection Hs as <- _; eauto.
  - intros tab key elem Htab Hkey Helem. split.
    + intros Hlen Hc Hall. exists IndexError. unfold _calculate_values.
      rewrite Htab, bind_Ok_l, Hkey, bind_Ok_l, Helem, bind_Ok_l.
      unfold compress_masked. rewrite Hshape.
      apply Nat.eqb_eq in Hlen as Hlenb. rewrite Hlenb, bind_Ok_l, Hall.
      replace (m =? 0) with false by (symmetry; apply Nat.eqb_neq; lia).
      replace (forallb negb cell_mask) with false; [reflexivity|].
      destruct cell_mask as [|b mask]; [simpl in Hlen; lia|].
      cbn [forallb] in Hall |- *. apply andb_true_iff in Hall as [Hb _].
      unfold id in Hb. by rewrite Hb.
    + intros Hlen H1. unfold _calculate_values.
      rewrite Htab, bind_Ok_l, Hkey, bind_Ok_l, Helem, bind_Ok_l.
      unfold compress_masked. rewrite Hshape.
      apply Nat.eqb_neq in Hlen as Hlenb. rewrite Hlenb.
      apply Nat.eqb_neq in H1. rewrite H1.
      replace (length cell_mask * m =? c * m) with false; [reflexivity|].
      symmetry. apply Nat.eqb_neq. nia.
  - intros -> b. unfold _calculate_values, compress_masked. rewrite Hshape.
    cbv zeta. rewrite length_replicate, (Nat.eqb_refl c).
    destruct c as [|[|c]]; reflexivity.
Qed.

Lemma calculate_values_masked_cells_witness :
  exists r,
    _calculate_values (field Examples.identity_scalar)
      (mk_ndarray [1; 1] [Examples.q 1 2]) 1 (Some [true; false]) = Ok r
    /\ exists p k, shape r = [1; p; k].
Proof.
  destruct (_calculate_values (field Examples.identity_scalar)
              (mk_ndarray [1; 1] [Examples.q 1 2]) 1 (Some [true; false]))
    as [r|e] eqn:Hr; [|vm_compute in Hr; discriminate].
  exists r. split; [reflexivity|].
  exact (proj1 (calculate_values_masked_cells
                  (field Examples.identity_scalar)
                  (mk_ndarray [1; 1] [Examples.q 1 2]) 1 2 2
                  [true; false] eq_refl ltac:(lia)) eq_refl r Hr).
Defined.

(** The evaluator's own failures: a dimension other than 1 and 2 has no
    derivative key ([KeyError]); a node number beyond the coefficient array is
    an [IndexError]; a cell-to-node row that has not the tabulated number of
    nodes, neither of the two being 1, is a [ValueError]. *)
Theorem calculate_values_errors (f : Field) (points : ndarray float)
    (dimension : nat) (tab : list (list nat * ndarray float)) :
  tabulate (fiat_element f) 0 points = Ok tab ->
  (dimension <> 1 -> dimension <> 2 ->
   forall cell_mask,
     _calculate_values f points dimension cell_mask = Raise KeyError)
  /\ (forall key elem n rest,
        keys dimension = Ok key ->
        dict_get tab key = Ok elem ->
        shape (dat_data_ro f) = n :: rest ->
        Exists (fun i => n <= i) (flat (cell_node_list f)) ->
        _calculate_values f points dimension None = Raise IndexError)
  /\ (forall key elem n c m nodes p,
        keys dimension = Ok key ->
        dict_get tab key = Ok elem ->
        shape (dat_data_ro f) = [n] ->
        shape (cell_node_list f) = [c; m] ->
        Forall (fun i => i < n) (flat (cell_node_list f)) ->
        shape elem = [nodes; p] ->
        m <> nodes -> m <> 1 -> nodes <> 1 ->
        _calculate_values f points dimension None = Raise ValueError).
Proof.
  intros Htab. split; [|split].
  - intros H1 H2 cell_mask. unfold _calculate_values.
    rewrite Htab, bind_Ok_l.
    destruct dimension as [|[|[|d]]]; try congruence; reflexivity.
  - intros key elem n rest Hkey Helem Hdat Hex. unfold _calculate_values.
    rewrite Htab, bind_Ok_l, Hkey, bind_Ok_l, Helem, !bind_Ok_l.
    unfold take_rows. rewrite Hdat.
    destruct (forallb _ _) eqn:Hall; [|reflexivity].
    rewrite forallb_forall in Hall.
    apply Exists_exists in Hex as (i & Hi & Hge).
    apply list_elem_of_In, Hall, Nat.ltb_lt in Hi. lia.
  - intros key elem n c m nodes p Hkey Helem Hdat Hcnl Hall Hse Hne Hm1 Hn1.
    unfold _calculate_values.
    rewrite Htab, bind_Ok_l, Hkey, bind_Ok_l, Helem, !bind_Ok_l.
    unfold take_rows. rewrite Hdat.
    replace (forallb _ _) with true.
    2:{ symmetry. apply forallb_forall. intros i Hi. apply Nat.ltb_lt.
        rewrite Forall_forall in Hall. by apply Hall, list_elem_of_In. }
    rewrite bind_Ok_l. cbv zeta.
    apply Nat.eqb_neq in Hne, Hm1, Hn1.
    destruct (vec_length_of (ufl_shape f) =? 1);
      unfold einsum_ijk_jl_ilk, reshape_append1; cbn [shape];
      rewrite Hcnl, Hse; cbn [app]; [by rewrite Hne, Hm1, Hn1 | reflexivity].
Qed.

Lemma calculate_values_errors_witness :
  _calculate_values (field Examples.identity_scalar)
    (mk_ndarray [1; 1] [Examples.q 1 2]) 3 None = Raise KeyError.
Proof.
  exact (proj1 (calculate_values_errors (field Examples.identity_scalar)
                  (mk_ndarray [1; 1] [Examples.q 1 2]) 3 _ eq_refl)
           ltac:(lia) ltac:(lia) None).
Defined.

Lemma calculate_values_scalar_shape (f : Field) (pts r : ndarray float)
    (npts dim dimension n c m : nat) :
  tabulates_pointwise (fiat_element f) dim ->
  vec_length_of (ufl_shape f) = 1 ->
  shape (dat_data_ro f) = [n] ->
  shape (cell_node_list f) = [c; m] ->
  shape pts = [npts; dim] ->
  wf_ndarray pts ->
  _calculate_values f pts dimension None = Ok r ->
  shape r = [c; npts; 1] /\ length (flat r) = c * npts.
Proof.
  intros Htab Hvec Hdat Hcnl Hpts Hwf H. unfold _calculate_values in H.
  apply bind_Ok in H as (tab & Ht & H).
  apply bind_Ok in H as (key & Hkey & H).
  apply bind_Ok in H as (elem & Helem & H).
  apply bind_Ok in H as (cnl & [= <-] & H).
  apply bind_Ok in H as (data & Hdata & H).
  rewrite Hvec in H. cbn [Nat.eqb] in H. cbv zeta in H.
  apply einsum_Ok in H
    as (ni & nj & nk & nj' & nl & Hsd & Hse & _ & Hsr & Hlen).
  apply take_rows_Ok in Hdata as (n0 & rest & Hsa & Hs & _).
  rewrite Hdat in Hsa. injection Hsa as <- <-.
  unfold reshape_append1 in Hsd. cbn [shape] in Hsd.
  rewrite Hs, Hcnl in Hsd. injection Hsd as -> -> <-.
  destruct (Htab 0 pts tab key elem npts Hpts Hwf Ht Helem) as [nodes Hnodes].
  rewrite Hse in Hnodes. injection Hnodes as _ ->.
  rewrite Hsr, Hlen. split; [reflexivity | lia].
Qed.

(** * Further properties of the triangulation builder *)

(** For a scalar function the values the builder returns match its global
    vertices one to one: there are (refined reference vertex count) x (number
    of mesh cells) of each. *)
Theorem two_dimension_triangle_Z_values (env : Env) (f : Function) (n : Z)
    (base : list float * list float) (depth nn nf m m' : nat)
    (T : Triangulation) (zs : list float) :
  base_triangulation (ufl_cell (mesh f)) = Ok base ->
  subdivision_depth n = Ok depth ->
  tabulates_pointwise (fiat_element (coordinates (mesh f))) 2 ->
  tabulates_pointwise (fiat_element (field f)) 2 ->
  ufl_shape (coordinates (mesh f)) = [2] ->
  ufl_shape (field f) = [] ->
  shape (dat_data_ro (coordinates (mesh f))) = [nn; 2] ->
  shape (dat_data_ro (field f)) = [nf] ->
  shape (cell_node_list (coordinates (mesh f))) = [num_cells (mesh f); m'] ->
  shape (cell_node_list (field f)) = [num_cells (mesh f); m] ->
  two_dimension_triangle_Z env f n = Ok (T, zs) ->
  let tri := refine_triangulation env base.1 base.2 depth in
  length zs = length (ref_vertices tri) * num_cells (mesh f)
  /\ length zs = length (tri_x T)
  /\ length zs = length (tri_y T).
Proof.
  intros Hbase Hdepth Htc Htf Hsc Hsf Hdc Hdf Hcc Hcf H tri.
  unfold two_dimension_triangle_Z in H.
  destruct (negb (matplotlib_importable env)); [discriminate|].
  rewrite Hbase, bind_Ok_l, Hdepth, bind_Ok_l in H. cbv zeta in H. fold tri in H.
  apply bind_Ok in H as (top & _ & H).
  apply bind_Ok in H as (nc & _ & H).
  apply bind_Ok in H as (z_vals & Hzv & H).
  apply bind_Ok in H as (coords_vals & Hcv & H).
  apply bind_Ok in H as (xy & Hxy & H).
  apply bind_Ok in H as (triangulation & HT & H).
  injection H as <- <-.
  destruct (points_of_pairs_wf (ref_vertices tri)) as [Hps Hpw].
  destruct (calculate_values_vector_shape _ _ _ _ _ _ _
              Htc Hsc Hdc Hcc Hps Hpw Hcv) as [_ Hlen].
  assert (Hvec : vec_length_of (ufl_shape (field f)) = 1) by (by rewrite Hsf).
  destruct (calculate_values_scalar_shape _ _ _ _ _ _ _ _ _
              Htf Hvec Hdf Hcf Hps Hpw Hzv) as [_ Hlz].
  unfold reshape_pairs in Hxy.
  destruct (Nat.even (length (flat coords_vals))); [|discriminate].
  injection Hxy as <-.
  apply mk_Triangulation_Ok in HT as (HX & HY & _).
  assert (Hpairs : length (pairs_of (length (flat coords_vals))
                                    (flat coords_vals))
                   = length (ref_vertices tri) * num_cells (mesh f)).
  { rewrite length_pairs_of by lia. rewrite Hlen, Nat.div_mul by lia. lia. }
  unfold ravel. rewrite HX, HY, !length_map, Hpairs, Hlz.
  repeat split; lia.
Qed.

Lemma two_dimension_triangle_Z_values_witness :
  exists T zs,
    two_dimension_triangle_Z Examples.with_libraries Examples.sum_xy 10
      = Ok (T, zs)
    /\ length zs = 3 * 2
    /\ length zs = length (tri_x T).
Proof.
  destruct (two_dimension_triangle_Z Examples.with_libraries Examples.sum_xy 10)
    as [[T zs]|e] eqn:Hret; [|vm_compute in Hret; discriminate].
  exists T, zs. split; [reflexivity|].
  destruct (two_dimension_triangle_Z_values Examples.with_libraries
              Examples.sum_xy 10
              ([Q2Qc 0; Q2Qc 0; Q2Qc 1], [Q2Qc 0; Q2Qc 1; Q2Qc 0]) 0 4 4 3 3 T zs
              eq_refl eq_refl p1_triangle_tabulates_pointwise
              p1_triangle_tabulates_pointwise
              eq_refl eq_refl eq_refl eq_refl eq_refl eq_refl Hret)
    as (H1 & H2 & _).
  split; [exact H1 | exact H2].
Defined.

(** * Further properties of the sampled Bezier rendering *)

Lemma sample_points_interval_shape (z : Z) (pts : ndarray float) :
  sample_points interval z = Ok pts ->
  (0 <= z)%Z /\ shape pts = [Z.to_nat z; 1] /\ wf_ndarray pts.
Proof.
  unfold sample_points, linspace.
  destruct (z <? 0)%Z eqn:Hz; [discriminate|]. apply Z.ltb_ge in Hz.
  rewrite bind_Ok_l. intros [= <-]. split; [exact Hz|].
  unfold wf_ndarray. cbn [shape flat prod_shape foldr].
  rewrite length_map, length_seq. split; [reflexivity | lia].
Qed.

Lemma calculate_one_dim_points_lengths (f : Function) (z : Z)
    (cell_mask : option (list bool)) (x y : ndarray float) :
  _calculate_points f z 1 cell_mask = Ok (x, y) ->
  length (flat x) <= length (flat y) ->
  exists xs ys,
    calculate_one_dim_points f z cell_mask = Ok (xs, ys)
    /\ length xs = length (flat x) /\ length ys = length (flat x).
Proof.
  intros Hxy Hlen. unfold calculate_one_dim_points.
  rewrite Hxy, bind_Ok_l. cbv zeta. unfold ravel. cbn [fst snd].
  rewrite (take_index_in_range (flat x) _ (Q2Qc 0)) by apply argsort_in_range.
  rewrite bind_Ok_l.
  rewrite (take_index_in_range (flat y) _ (Q2Qc 0)).
  2:{ eapply Forall_impl; [apply argsort_in_range|]. simpl. lia. }
  rewrite bind_Ok_l. eexists _, _. split; [reflexivity|].
  by rewrite !length_map, argsort_Permutation, length_seq.
Qed.

(** End to end: for a one-dimensional function of degree 4 or more on [c]
    interval cells, [plot] with the [bezier] option, when the evaluation of
    the function and of the coordinates succeeds, returns a figure with one
    path of [(m - 1) / 3 >= 1] cubic segments per cell, [m] being the adjusted
    sample count: [c * ((m - 1) / 3) * 4] vertices, coded
    [MOVETO, CURVE4, CURVE4, CURVE4] per segment. *)
Theorem plot_bezier_sampled_path (env : Env) (f : Function) (n : Z)
    (kw : kwargs) (x y : ndarray float) (c nf nc mf mc : nat) :
  matplotlib_importable env = true ->
  geometric_dimension (mesh f) = 1 ->
  topological_dimension (mesh f) = 1 ->
  ufl_cell (mesh f) = interval ->
  4 <= ufl_element_degree (field f) ->
  kw_bezier kw = true ->
  tabulates_pointwise (fiat_element (field f)) 1 ->
  tabulates_pointwise (fiat_element (coordinates (mesh f))) 1 ->
  vec_length_of (ufl_shape (field f)) = 1 ->
  vec_length_of (ufl_shape (coordinates (mesh f))) = 1 ->
  shape (dat_data_ro (field f)) = [nf] ->
  shape (dat_data_ro (coordinates (mesh f))) = [nc] ->
  shape (cell_node_list (field f)) = [c; mf] ->
  shape (cell_node_list (coordinates (mesh f))) = [c; mc] ->
  num_cells (mesh f) = c ->
  0 < c ->
  _calculate_points f (adjust_sample_points n) 1 None = Ok (x, y) ->
  let segments := Z.to_nat ((adjust_sample_points n - 1) / 3) in
  1 <= segments
  /\ exists path,
       plot env (PFunction f) n kw = Ok (Some [PathPatch path])
       /\ length (path_vertices path) = c * (segments * 4)
       /\ path_codes path
          = tile [MOVETO; CURVE4; CURVE4; CURVE4] (c * segments).
Proof.
  intros Hmpl Hg Ht Hcell Hdeg Hbez Htf Htc Hvf Hvc Hdf Hdc Hcf Hcc Hnum Hc Hxy
         segments.
  destruct (adjust_sample_points_bounds n) as [Hm4 _].
  set (z := adjust_sample_points n) in *.
  assert (Hseg : 1 <= segments).
  { unfold segments. Z.to_euclidean_division_equations. lia. }
  split; [exact Hseg|].
  pose proof Hxy as Hxy'. unfold _calculate_points in Hxy'.
  apply bind_Ok in Hxy' as (pts & Hpts & Hxy').
  apply bind_Ok in Hxy' as (y' & Hy & Hxy').
  apply bind_Ok in Hxy' as (x' & Hx & Hxy').
  injection Hxy' as -> ->. rewrite Hcell in Hpts.
  apply sample_points_interval_shape in Hpts as (_ & Hps & Hpw).
  destruct (calculate_values_scalar_shape _ _ _ _ _ _ _ _ _
              Htf Hvf Hdf Hcf Hps Hpw Hy) as [_ Hly].
  destruct (calculate_values_scalar_shape _ _ _ _ _ _ _ _ _
              Htc Hvc Hdc Hcc Hps Hpw Hx) as [_ Hlx].
  destruct (calculate_one_dim_points_lengths f z None x y Hxy ltac:(lia))
    as (xs & ys & Hret & Hxs & Hys).
  rewrite Hlx in Hxs, Hys.
  destruct (interp_bezier_vertices env (xs, ys) c (Z.to_nat z)
              Hmpl Hc Hxs Hys) as (path & Hpath & Hverts & Hcodes & _).
  rewrite Z2Nat.id in Hverts, Hcodes by lia. fold segments in Hverts, Hcodes.
  exists path. split; [|split; [exact Hverts | exact Hcodes]].
  simpl. unfold plot_function. rewrite Hmpl, Hg, Ht, Hbez. cbn [negb andb Nat.eqb].
  destruct (ufl_element_degree (field f) <? 4) eqn:Hlt;
    [apply Nat.ltb_lt in Hlt; lia|].
  fold z. rewrite Hret, bind_Ok_l, Hnum, Hpath. reflexivity.
Qed.

Lemma lagrange_interval_tabulates_pointwise (deg : nat) :
  tabulates_pointwise (Examples.lagrange_interval deg) 1.
Proof.
  intros order pts tab key elem npts Hshape Hwf Htab Hget.
  simpl in Htab. injection Htab as <-. simpl in Hget.
  destruct (decide ([order] = key)); [|discriminate].
  injection Hget as <-. eexists. cbn [shape]. do 2 f_equal.
  unfold wf_ndarray in Hwf. rewrite Hwf, Hshape.
  cbn [prod_shape foldr]. lia.
Qed.

Lemma plot_bezier_sampled_path_witness :
  exists path,
    plot Examples.with_libraries (PFunction Examples.quartic) 10
         Examples.bezier_kwargs
    = Ok (Some [PathPatch path])
    /\ length (path_vertices path) = 2 * (3 * 4).
Proof.
  edestruct (plot_bezier_sampled_path Examples.with_libraries Examples.quartic
               10 Examples.bezier_kwargs)
    as (_ & path & Hret & Hlen & _).
  - reflexivity.
  - reflexivity.
  - reflexivity.
  - reflexivity.
  - simpl. lia.
  - reflexivity.
  - apply lagrange_interval_tabulates_pointwise.
  - apply lagrange_interval_tabulates_pointwise.
  - reflexivity.
  - reflexivity.
  - reflexivity.
  - reflexivity.
  - reflexivity.
  - reflexivity.
  - reflexivity.
  - simpl. lia.
  - vm_compute. reflexivity.
  - exists path. split; [exact Hret | exact Hlen].
Defined.
